(** * qmail log plugin: line reassembly, rotation handling and the interval cycle

    A shallow embedding of [fs.c], [ratelimitspp.c] and the event loop of
    [qmail.plugin.c], with the properties the design document states about
    them.

    Conventions.
    - A C [char] is an [ascii]; a buffer or a C string is a [list ascii].
      A string handed to a callback is the bytes before the first NUL.
    - [sizeof watch->buf] is the length of the list that models the array:
      the array never changes size, so no separate capacity is carried.
    - Offsets and lengths inside the buffer are [nat]: they are bounded by
      the buffer size and the code never lets them go negative.  Values of
      type [int] that can be negative (descriptors, return codes) are [Z].
    - The kernel is a record [world]: the open descriptors with the bytes
      each will deliver, the files by path, and [errno]. *)

From Stdlib Require Import Ascii String.
From stdpp Require Import gmap strings list option.

Open Scope Z_scope.

(** ** Bytes and C strings *)

Definition NUL : ascii := "000"%char.
Definition LF : ascii := "010"%char.

(** [memchr l c]: offset of the first [c] in the span [l], if any. *)
Fixpoint memchr (l : list ascii) (c : ascii) : option nat :=
  match l with
  | [] => None
  | x :: l' => if decide (x = c) then Some 0%nat else S <$> memchr l' c
  end.

(** The C string starting at the head of [l]: the bytes before the first
    NUL. *)
Fixpoint c_str (l : list ascii) : list ascii :=
  match l with
  | [] => []
  | x :: l' => if decide (x = NUL) then [] else x :: c_str l'
  end.

(** [memmove (dst, dst + src, n)] inside one array, [dst] being its start. *)
Definition memmove (b : list ascii) (src n : nat) : list ascii :=
  take n (drop src b) ++ drop n b.

(** What [read] does to the destination array: [bs] lands at offset [off]. *)
Definition store (b : list ascii) (off : nat) (bs : list ascii) : list ascii :=
  take off b ++ bs ++ drop (off + length bs) b.

(** ** The kernel side *)

(** What a descriptor will deliver, in order: a run of bytes that are
    available without blocking, or a failing [read] with its [errno].
    An exhausted script, or an empty run, reads as 0. *)
Inductive read_event :=
  | Avail (bs : list ascii)
  | Fail (errno : Z).

Definition EAGAIN : Z := 11.
Definition EIO : Z := 5.
Definition EBADF : Z := 9.

Definition ENOENT : Z := 2.

Global Instance read_event_eq_dec : EqDecision read_event.
Proof. solve_decision. Defined.

Record world := {
  fds : gmap Z (list read_event);
  files : gmap string (list ascii);
  errno : Z;
  clock : Z;
}.

Definition set_fds (σ : world) (t : gmap Z (list read_event)) : world :=
  {| fds := t; files := files σ; errno := errno σ; clock := clock σ |}.
Definition set_errno (σ : world) (e : Z) : world :=
  {| fds := fds σ; files := files σ; errno := e; clock := clock σ |}.

(** One [read] against a script: the return value, the bytes transferred
    and what is left.  At most [count] bytes are transferred; the rest of
    a longer run stays available. *)
Definition script_read (s : list read_event) (count : nat)
  : Z * list ascii * list read_event :=
  match s with
  | [] => (0, [], [])
  | Fail _ :: s' => (-1, [], s')
  | Avail bs :: s' =>
      if decide (length bs ≤ count)%nat
      then (Z.of_nat (length bs), bs, s')
      else (Z.of_nat count, take count bs, Avail (drop count bs) :: s')
  end.

(** [read(fd, ..., count)]. *)
Definition sys_read (σ : world) (fd : Z) (count : nat)
  : Z * list ascii * world :=
  match fds σ !! fd with
  | None => (-1, [], set_errno σ EBADF)
  | Some s =>
      let '(ret, bs, s') := script_read s count in
      let σ' := set_fds σ (<[fd := s']> (fds σ)) in
      (ret, bs, match s with Fail e :: _ => set_errno σ' e | _ => σ' end)
  end.

(** The lowest descriptor number that is not in use. *)
Definition lowest_free (t : gmap Z (list read_event)) : Z :=
  Z.of_nat (default 0%nat
    (fst <$> list_find (λ n, t !! Z.of_nat n = None) (seq 0 (S (size t))))).

(** [open(path, O_RDONLY)]: the new descriptor stands at the start of the
    file, so all of its content is still to be delivered. *)
Definition sys_open (σ : world) (path : string) : Z * world :=
  match files σ !! path with
  | None => (-1, set_errno σ ENOENT)
  | Some content =>
      let fd := lowest_free (fds σ) in
      (fd, set_fds σ (<[fd := [Avail content]]> (fds σ)))
  end.

(** [lseek(fd, 0, SEEK_END)]: nothing of the present content is left to
    deliver. *)
Definition sys_lseek_end (σ : world) (fd : Z) : world :=
  match fds σ !! fd with
  | None => set_errno σ EBADF
  | Some _ => set_fds σ (<[fd := []]> (fds σ))
  end.

(** [close(fd)]. *)
Definition sys_close (σ : world) (fd : Z) : world :=
  match fds σ !! fd with
  | None => set_errno σ EBADF
  | Some _ => set_fds σ (delete fd (fds σ))
  end.

(** ** How a run can stop

    [exit(code)] or a return from [main]; the use of a null pointer; a
    loop that was given no more turns; [poll] with nothing left to wake
    it. *)
Inductive halt :=
  | Exited (code : Z)
  | Faulted
  | Spinning
  | Blocked.

Inductive result (A : Type) :=
  | Ok (a : A)
  | Stop (h : halt).
Arguments Ok {A}.
Arguments Stop {A}.

Global Instance result_ret : MRet result := λ A a, Ok a.
Global Instance result_bind : MBind result := λ A B k m,
  match m with
  | Ok a => k a
  | Stop h => Stop h
  end.

(** A bounded loop that was not given enough turns counts as spinning. *)
Definition of_option {A} (o : option A) : result A :=
  match o with
  | Some a => Ok a
  | None => Stop Spinning
  end.

(** ** Callbacks and watches *)

Inductive skip_state := DO_NOT_SKIP | SKIP_THE_REST.
Inductive watch_type := WATCH_LOG_FILE | WATCH_QUEUE.
Inductive nd_err := ND_SUCCESS | ND_FILE | ND_INOTIFY | ND_ALLOC.

Global Instance skip_state_eq_dec : EqDecision skip_state.
Proof. solve_decision. Defined.
Global Instance watch_type_eq_dec : EqDecision watch_type.
Proof. solve_decision. Defined.
Global Instance nd_err_eq_dec : EqDecision nd_err.
Proof. solve_decision. Defined.

(** [struct stat_func].  [D] stands for what the [void *] data points
    to.  A member that the sources test for, or leave as, a null pointer
    is an [option]; [process] receives [None] for a null line, and
    [print] receives [None] for a null name and when it is called without
    a name.  [print] stands for its return value, which is that of
    [fflush(stdout)].  The members [fini] and [print_hdr] act on nothing
    that is modelled here and are left out. *)
Record stat_func (D : Type) := {
  init : option D;
  print : option string → D → Z → Z;
  process : option (list ascii) → D → D;
  postprocess : option (D → D);
  clear : D → D;
  aggregate : option (D → D → D);
}.
Arguments init {D}.
Arguments print {D}.
Arguments process {D}.
Arguments postprocess {D}.
Arguments clear {D}.
Arguments aggregate {D}.

(** [struct fs_watch].  The two names are null in the queue watch. *)
Record fs_watch (D : Type) := {
  dir_name : option string;
  file_name : option string;
  type : watch_type;
  watch_dir : Z;
  fd : Z;
  func : stat_func D;
  data : D;
  buf : list ascii;
  buffered : nat;
  skip : skip_state;
  time : Z;
}.
Arguments dir_name {D}.
Arguments file_name {D}.
Arguments type {D}.
Arguments watch_dir {D}.
Arguments fd {D}.
Arguments func {D}.
Arguments data {D}.
Arguments buf {D}.
Arguments buffered {D}.
Arguments skip {D}.
Arguments time {D}.

Section Reader.
Context {D : Type}.
Implicit Types (w : fs_watch D) (σ : world).

Definition set_fd w (x : Z) : fs_watch D :=
  {| dir_name := dir_name w; file_name := file_name w; type := type w;
     watch_dir := watch_dir w; fd := x; func := func w; data := data w;
     buf := buf w; buffered := buffered w; skip := skip w; time := time w |}.
Definition set_data w (x : D) : fs_watch D :=
  {| dir_name := dir_name w; file_name := file_name w; type := type w;
     watch_dir := watch_dir w; fd := fd w; func := func w; data := x;
     buf := buf w; buffered := buffered w; skip := skip w; time := time w |}.
Definition set_buf w (x : list ascii) : fs_watch D :=
  {| dir_name := dir_name w; file_name := file_name w; type := type w;
     watch_dir := watch_dir w; fd := fd w; func := func w; data := data w;
     buf := x; buffered := buffered w; skip := skip w; time := time w |}.
Definition set_buffered w (x : nat) : fs_watch D :=
  {| dir_name := dir_name w; file_name := file_name w; type := type w;
     watch_dir := watch_dir w; fd := fd w; func := func w; data := data w;
     buf := buf w; buffered := x; skip := skip w; time := time w |}.
Definition set_skip w (x : skip_state) : fs_watch D :=
  {| dir_name := dir_name w; file_name := file_name w; type := type w;
     watch_dir := watch_dir w; fd := fd w; func := func w; data := data w;
     buf := buf w; buffered := buffered w; skip := x; time := time w |}.
Definition set_time w (x : Z) : fs_watch D :=
  {| dir_name := dir_name w; file_name := file_name w; type := type w;
     watch_dir := watch_dir w; fd := fd w; func := func w; data := data w;
     buf := buf w; buffered := buffered w; skip := skip w; time := x |}.

(** [watch->func->process(line, watch->data)] with [line] at offset [line]
    of the buffer. *)
Definition dispatch w (line : nat) : fs_watch D :=
  set_data w (process (func w) (Some (c_str (drop line (buf w)))) (data w)).

(** The inner [for (;;)] of [read_log_file]: [line] is the offset of the
    pointer of that name, [ret] the number of valid bytes.  Every turn
    that finds a terminator moves [line] forward, so [S (ret - line)]
    turns are enough; [None] is a run that was given fewer. *)
Fixpoint scan_lines (fuel : nat) w (line ret : nat) : option (fs_watch D) :=
  match fuel with
  | O => None
  | S fuel' =>
      let max_line_length := (ret - line)%nat in
      match memchr (take max_line_length (drop line (buf w))) LF with
      | Some k =>
          let end_ := (line + k)%nat in
          let w1 := set_buf w (<[end_ := NUL]> (buf w)) in
          let w2 := match skip w1 with
                    | DO_NOT_SKIP => dispatch w1 line
                    | SKIP_THE_REST => set_skip w1 DO_NOT_SKIP
                    end in
          scan_lines fuel' w2 (end_ + 1) ret
      | None =>
          if decide (0 < max_line_length ∧ max_line_length < length (buf w))%nat
          then
            let w1 := set_buffered w max_line_length in
            Some (set_buf w1 (memmove (buf w1) line (buffered w1)))
          else if decide (max_line_length = length (buf w))
          then
            let w1 := set_buf w (<[(length (buf w) - 1)%nat := NUL]> (buf w)) in
            let w2 := match skip w1 with
                      | DO_NOT_SKIP => dispatch w1 line
                      | SKIP_THE_REST => w1
                      end in
            Some (set_skip w2 SKIP_THE_REST)
          else Some w
      end
  end.

(** The body of the [while] of [read_log_file], after a [read] that
    returned the bytes [bs] (so [ret] is their number, and they already
    sit in the buffer from offset [buffered] on). *)
Definition absorb w (bs : list ascii) : option (fs_watch D) :=
  let w0 := set_buf w (store (buf w) (buffered w) bs) in
  let ret := (length bs + buffered w0)%nat in
  let w1 := set_buffered w0 0 in
  scan_lines (S ret) w1 0 ret.

(** The [while] itself. *)
Fixpoint read_loop (fuel : nat) w σ : option (fs_watch D * world) :=
  match fuel with
  | O => None
  | S fuel' =>
      let '(ret, bs, σ') :=
        sys_read σ (fd w) (length (buf w) - buffered w) in
      if decide (0 < ret)
      then w' ← absorb w bs; read_loop fuel' w' σ'
      else Some (w, σ')
  end.

(** Every successful [read] takes at least one byte off the script and
    every other one at most ends it, so this many turns suffice. *)
Definition script_size (s : list read_event) : nat :=
  foldr (λ e n, match e with
                | Avail bs => S (length bs + n)
                | Fail _ => S n
                end) 0%nat s.

Definition read_fuel σ (fd : Z) : nat :=
  S (script_size (default [] (fds σ !! fd))).

Definition read_log_file w σ : option (nd_err * fs_watch D * world) :=
  if decide (fd w = -1) then Some (ND_FILE, w, σ)
  else '(w', σ') ← read_loop (read_fuel σ (fd w)) w σ;
       Some (ND_SUCCESS, w', σ').

End Reader.

(** ** Rotation: [reopen_log_file], [process_fs_event] *)

(** [struct inotify_event], the members the plugin reads. *)
Record inotify_event := {
  wd : Z;
  len : nat;
  name : string;
}.

(** What the notification descriptor delivers on one wake-up: the
    records of each successful [read], then the result of the [read]
    that ends the loop (0 or -1) and the [errno] it leaves. *)
Record fs_queue := {
  batches : list (list inotify_event);
  last_len : Z;
  last_errno : Z;
}.

Section Rotation.
Context {D : Type}.
Implicit Types (w item : fs_watch D) (σ : world).

(** [sprintf(file_name, "%s/%s", dir, file)]. *)
Definition path_of (dir file : string) : string :=
  (dir +:+ "/" +:+ file)%string.

Definition reopen_log_file w σ : result (fs_watch D * world) :=
  match dir_name w, file_name w with
  | Some d, Some f =>
      let σ1 := sys_close σ (fd w) in
      let '(fd', σ2) := sys_open σ1 (path_of d f) in
      Ok (set_fd w fd', σ2)
  | _, _ => Stop Faulted
  end.

(** The body of the loop of [process_fs_event] for one watch. *)
Definition process_fs_event_item (event : inotify_event) item σ
  : result (fs_watch D * world) :=
  if decide (wd event = watch_dir item) then
    if decide (len event ≠ 0%nat) then
      match file_name item with
      | None => Stop Faulted
      | Some f =>
          if decide (name event = f) then
            '(_, item1, σ1) ← of_option (read_log_file item σ);
            reopen_log_file item1 σ1
          else Ok (item, σ)
      end
    else Ok (item, σ)
  else Ok (item, σ).

Fixpoint process_fs_event (event : inotify_event)
    (watchers : list (fs_watch D)) σ : result (list (fs_watch D) * world) :=
  match watchers with
  | [] => Ok ([], σ)
  | item :: rest =>
      '(item', σ1) ← process_fs_event_item event item σ;
      '(rest', σ2) ← process_fs_event event rest σ1;
      Ok (item' :: rest', σ2)
  end.

Fixpoint process_fs_events (events : list inotify_event)
    (watchers : list (fs_watch D)) σ : result (list (fs_watch D) * world) :=
  match events with
  | [] => Ok (watchers, σ)
  | event :: rest =>
      '(watchers1, σ1) ← process_fs_event event watchers σ;
      process_fs_events rest watchers1 σ1
  end.

Definition process_fs_event_queue (q : fs_queue)
    (watchers : list (fs_watch D)) σ : result (list (fs_watch D) * world) :=
  '(watchers1, σ1) ← process_fs_events (concat (batches q)) watchers σ;
  if decide (last_len q = -1 ∧ last_errno q ≠ EAGAIN)
  then Stop (Exited 1)
  else Ok (watchers1, σ1).

(** ** Creating watches ([qmail.plugin.c]) *)

(** The size of the array [buf] is declared in [fs.h], which is not part
    of the sources at hand: it is a parameter. *)
Variable buf_size : nat.

(** [inotify_add_watch(fd, dir, IN_CREATE)] as the kernel answers it. *)
Variable inotify_add_watch : string → Z.

(** A watch right after [memset(&watch, 0, sizeof watch)], with the
    members the caller then fills in.  [DO_NOT_SKIP] is taken to be the
    enumerator of value 0. *)
Definition zeroed_watch (dir file : option string) (ty : watch_type)
    (wdir fd_ : Z) (func_ : stat_func D) (data_ : D) : fs_watch D :=
  {| dir_name := dir; file_name := file; type := ty; watch_dir := wdir;
     fd := fd_; func := func_; data := data_;
     buf := replicate buf_size NUL; buffered := 0; skip := DO_NOT_SKIP;
     time := 0 |}.

(** [prepare_watcher]: the watch is handed back only with [ND_SUCCESS],
    the one case in which the caller looks at it. *)
Definition prepare_watcher (dir : string) (func_ : stat_func D) σ
  : nd_err * option (fs_watch D) * world :=
  let file := "current"%string in
  let wdir := inotify_add_watch dir in
  if decide (wdir = -1) then (ND_INOTIFY, None, σ)
  else
    let '(fd_, σ1) := sys_open σ (path_of dir file) in
    let σ2 := sys_lseek_end σ1 fd_ in
    match init func_ with
    | None => (ND_ALLOC, None, σ2)
    | Some d =>
        (ND_SUCCESS,
         Some (zeroed_watch (Some dir) (Some file) WATCH_LOG_FILE wdir fd_
                 func_ d), σ2)
    end.

End Rotation.

(** ** The collector of [ratelimitspp.c] *)

(** [strstr(h, n)]: the tail of [h] from the first occurrence of [n]. *)
Fixpoint starts_with (h n : list ascii) : bool :=
  match n, h with
  | [], _ => true
  | _ :: _, [] => false
  | y :: n', x :: h' => bool_decide (x = y) && starts_with h' n'
  end.

Fixpoint strstr (h n : list ascii) : option (list ascii) :=
  if starts_with h n then Some h
  else match h with
       | [] => None
       | _ :: h' => strstr h' n
       end.

(** An [int] after [++], wrapped to 32 bits. *)
Definition int_incr (z : Z) : Z :=
  (z + 1 + 2 ^ 31) `mod` 2 ^ 32 - 2 ^ 31.

Record ratelimitspp_statistics := {
  conn_timeout : Z;
  error : Z;
  ratelimited : Z;
}.

Definition ratelimitspp_zero : ratelimitspp_statistics :=
  {| conn_timeout := 0; error := 0; ratelimited := 0 |}.

(** [calloc] either yields a zeroed block or a null pointer. *)
Definition ratelimitspp_data_init (calloc_ok : bool)
  : option ratelimitspp_statistics :=
  if calloc_ok then Some ratelimitspp_zero else None.

Definition ratelimitspp_clear (data : ratelimitspp_statistics)
  : ratelimitspp_statistics :=
  ratelimitspp_zero.

Definition lit (s : string) : list ascii := list_ascii_of_string s.

(** [ratelimitspp_process].  The inner [if] assigns to [ptr], so its
    [else] branch hands a null pointer to [strstr]: [None] is that
    fault. *)
Definition ratelimitspp_process (line : list ascii)
    (data : ratelimitspp_statistics) : option ratelimitspp_statistics :=
  match strstr line (lit "ratelimitspp:") with
  | Some ptr =>
      match strstr ptr (lit "Error:") with
      | Some ptr' =>
          match strstr ptr' (lit "Receiving data failed, connection timed out.") with
          | Some _ =>
              Some {| conn_timeout := int_incr (conn_timeout data);
                      error := error data;
                      ratelimited := ratelimited data |}
          | None =>
              Some {| conn_timeout := conn_timeout data;
                      error := int_incr (error data);
                      ratelimited := ratelimited data |}
          end
      | None => None
      end
  | None => Some data
  end.

(** [struct stat_func ratelimitspp]: [.postprocess] is null and
    [.aggregate] is not set at all.  [fflush_result] is what
    [fflush(stdout)] returns in [ratelimitspp_print].  A callback of a
    table is a function on the data of the watch, and
    [ratelimitspp_process] does not return on every input: it faults on
    the null line of a tick, which goes into [strstr] at once, and on a
    line with the marker but no [Error:] behind it.  The table therefore
    works on [option ratelimitspp_statistics], where [None] is the
    collector after such a fault: the process is dead, no callback
    brings the block back, and a run that ends with [None] is a run
    that has faulted. *)
Definition ratelimitspp (calloc_ok : bool) (fflush_result : Z)
  : stat_func (option ratelimitspp_statistics) :=
  {| init := Some <$> ratelimitspp_data_init calloc_ok;
     print := λ _ _ _, fflush_result;
     process := λ line data,
       l ← line; d ← data; ratelimitspp_process l d;
     postprocess := None;
     clear := fmap ratelimitspp_clear;
     aggregate := None |}.

(** ** The event loop of [main] *)

(** [struct fs_watch_aggregator]. *)
Record fs_watch_aggregator (D : Type) := {
  agg_type : watch_type;
  agg_func : stat_func D;
  agg_data : D;
  agg_time : Z;
}.
Arguments agg_type {D}.
Arguments agg_func {D}.
Arguments agg_data {D}.
Arguments agg_time {D}.

(** What reaches standard output: a snapshot of a watch, printed under
    its directory name, or of an aggregator, printed without a name. *)
Inductive emission (D : Type) :=
  | WatchSnapshot (name : option string) (d : D) (elapsed : Z)
  | AggregatorSnapshot (d : D) (elapsed : Z).
Arguments WatchSnapshot {D}.
Arguments AggregatorSnapshot {D}.

(** One result of [poll]: -1, 0, or the descriptors that are readable. *)
Inductive poll_event :=
  | PollError
  | PollTimeout
  | PollReady (signal : bool) (fs_event : option fs_queue) (timer : bool).

(** One entry of the working directory: its name and what
    [is_directory] says of it. *)
Record dirent := {
  d_name : string;
  is_directory : Z;
}.

(** What the start of [main] finds. *)
Record environment := {
  chdir_ok : bool;
  inotify_init_ok : bool;
  opendir_ok : bool;
  entries : list dirent;
  add_watch_result : string → Z;
  kernel0 : world;
}.

Section Main.
Context {D : Type}.
Variable buf_size : nat.
Variables send_func smtp_func queue_func ratelimitspp_func : stat_func D.

Record plugin := {
  watchers : list (fs_watch D);
  aggregators : list (fs_watch_aggregator D);
  kernel : world;
  out : list (emission D);
}.

Definition set_agg_data (a : fs_watch_aggregator D) (x : D)
  : fs_watch_aggregator D :=
  {| agg_type := agg_type a; agg_func := agg_func a; agg_data := x;
     agg_time := agg_time a |}.
Definition set_agg_time (a : fs_watch_aggregator D) (x : Z)
  : fs_watch_aggregator D :=
  {| agg_type := agg_type a; agg_func := agg_func a; agg_data := agg_data a;
     agg_time := x |}.

(** Modelled from the spec: [update_timestamp] is defined in [timer.c],
    which is not part of the sources at hand.  It yields the time elapsed
    since the stored stamp and stores the present time. *)
Definition update_timestamp (σ : world) (t : Z) : Z * Z :=
  (clock σ - t, clock σ).

(** The loop over the aggregators inside the loop over the watches.  It
    counts with the same variable [i] as the outer loop, and what it
    leaves in [i] is handed back. *)
Fixpoint aggregate_loop (i : nat) (rest : list (fs_watch_aggregator D))
    (watch : fs_watch D) : result (list (fs_watch_aggregator D) * nat) :=
  match rest with
  | [] => Ok ([], i)
  | aggregator :: rest' =>
      aggregator' ←
        (if decide (agg_type aggregator = type watch) then
           match aggregate (agg_func aggregator) with
           | Some g =>
               Ok (set_agg_data aggregator
                     (g (agg_data aggregator) (data watch)))
           | None => Stop Faulted
           end
         else Ok aggregator);
      '(rest'', i') ← aggregate_loop (S i) rest' watch;
      Ok (aggregator' :: rest'', i')
  end.

Definition run_postprocess (f : stat_func D) (d : D) : D :=
  match postprocess f with
  | Some pp => pp d
  | None => d
  end.

(** The loop over the watches, from index [i]; the flag handed back is
    [run]. *)
Fixpoint watch_loop (fuel : nat) (i : nat) (st : plugin)
  : result (plugin * bool) :=
  match fuel with
  | O => Stop Spinning
  | S fuel' =>
      match watchers st !! i with
      | None => Ok (st, true)
      | Some watch =>
          '(watch1, σ1) ←
            match type watch with
            | WATCH_LOG_FILE =>
                '(_, w', σ') ← of_option (read_log_file watch (kernel st));
                Ok (w', σ')
            | WATCH_QUEUE =>
                Ok (set_data watch (process (func watch) None (data watch)),
                    kernel st)
            end;
          '(aggs, i1) ← aggregate_loop 0 (aggregators st) watch1;
          let watch2 :=
            set_data watch1 (run_postprocess (func watch1) (data watch1)) in
          let '(last_update, now) := update_timestamp σ1 (time watch2) in
          let watch3 := set_time watch2 now in
          let out1 :=
            out st ++ [WatchSnapshot (dir_name watch3) (data watch3) last_update] in
          if decide (print (func watch3) (dir_name watch3) (data watch3)
                       last_update ≠ 0)
          then
            Ok ({| watchers := <[i := watch3]> (watchers st);
                   aggregators := aggs; kernel := σ1; out := out1 |}, false)
          else
            let watch4 := set_data watch3 (clear (func watch3) (data watch3)) in
            watch_loop fuel' (i1 + 1)
              {| watchers := <[i := watch4]> (watchers st);
                 aggregators := aggs; kernel := σ1; out := out1 |}
      end
  end.

(** The loop over the aggregators that follows; [run] is cleared by a
    failing [print]. *)
Fixpoint aggregator_loop (rest : list (fs_watch_aggregator D)) (σ : world)
    (o : list (emission D)) (run : bool)
  : list (fs_watch_aggregator D) * list (emission D) * bool :=
  match rest with
  | [] => ([], o, run)
  | aggregator :: rest' =>
      let a1 := set_agg_data aggregator
                  (run_postprocess (agg_func aggregator) (agg_data aggregator)) in
      let '(last_update, now) := update_timestamp σ (agg_time a1) in
      let a2 := set_agg_time a1 now in
      let o1 := o ++ [AggregatorSnapshot (agg_data a2) last_update] in
      if decide (print (agg_func a2) None (agg_data a2) last_update ≠ 0)
      then (a2 :: rest', o1, false)
      else
        let a3 := set_agg_data a2 (clear (agg_func a2) (agg_data a2)) in
        let '(rest'', o2, run') := aggregator_loop rest' σ o1 run in
        (a3 :: rest'', o2, run')
  end.

(** What the loop does when the timer has fired. *)
Definition interval_cycle (fuel : nat) (st : plugin) : result (plugin * bool) :=
  '(st1, run1) ← watch_loop fuel 0 st;
  let '(aggs, o, run2) :=
    aggregator_loop (aggregators st1) (kernel st1) (out st1) run1 in
  Ok ({| watchers := watchers st1; aggregators := aggs;
         kernel := kernel st1; out := o |}, run2).

(** [for (run = 1; run;) switch (poll(...))], over what [poll] returns
    from now on.  It hands back the state in which [run] was cleared. *)
Fixpoint event_loop (fuel : nat) (st : plugin) (polls : list poll_event)
  : result plugin :=
  match polls with
  | [] => Stop Blocked
  | PollError :: polls' => event_loop fuel st polls'
  | PollTimeout :: polls' => event_loop fuel st polls'
  | PollReady signal fs_event timer :: polls' =>
      if signal then Ok st
      else
        st1 ← match fs_event with
              | Some q =>
                  '(ws, σ) ← process_fs_event_queue q (watchers st) (kernel st);
                  Ok {| watchers := ws; aggregators := aggregators st;
                        kernel := σ; out := out st |}
              | None => Ok st
              end;
        if timer then
          '(st2, run) ← interval_cycle fuel st1;
          if (run : bool) then event_loop fuel st2 polls' else Ok st2
        else event_loop fuel st1 polls'
  end.

(** [detect_log_dirs], its loop over the directory entries. *)
Fixpoint detect_log_dirs (add_watch : string → Z) (es : list dirent)
    (v : list (fs_watch D)) (σ : world) : list (fs_watch D) * world :=
  match es with
  | [] => (v, σ)
  | dir_entry :: es' =>
      let dir_name := d_name dir_entry in
      let skip_it := detect_log_dirs add_watch es' v σ in
      let try_with (fn : stat_func D) :=
        match prepare_watcher buf_size add_watch dir_name fn σ with
        | (ND_SUCCESS, Some watch, σ1) =>
            detect_log_dirs add_watch es' (v ++ [watch]) σ1
        | (_, _, σ1) => detect_log_dirs add_watch es' v σ1
        end in
      if decide (head (lit dir_name) = Some "."%char) then skip_it
      else if decide (is_directory dir_entry = 1) then
        if strstr (lit dir_name) (lit "send") is Some _ then try_with send_func
        else if strstr (lit dir_name) (lit "smtp") is Some _
             then try_with smtp_func
             else skip_it
      else skip_it
  end.

Definition append_queue_watcher (v : list (fs_watch D))
  : nd_err * list (fs_watch D) :=
  match init queue_func with
  | None => (ND_ALLOC, v)
  | Some d =>
      (ND_SUCCESS,
       v ++ [zeroed_watch buf_size None None WATCH_QUEUE (-1) (-1) queue_func d])
  end.

Definition append_ratelimit_aggregator (v : list (fs_watch_aggregator D))
  : nd_err * list (fs_watch_aggregator D) :=
  match init ratelimitspp_func with
  | None => (ND_ALLOC, v)
  | Some d =>
      (ND_SUCCESS,
       v ++ [{| agg_type := WATCH_LOG_FILE; agg_func := ratelimitspp_func;
                agg_data := d; agg_time := 0 |}])
  end.

(** [main] up to the event loop.  [prepare_timer_fd] and
    [prepare_signal_fd] are not part of the sources at hand and are
    taken to return. *)
Definition setup (env : environment) : result plugin :=
  if negb (chdir_ok env) then Stop (Exited 1)
  else if negb (inotify_init_ok env) then Stop (Exited 1)
  else if negb (opendir_ok env) then Stop (Exited 1)
  else
    let '(v1, σ1) :=
      detect_log_dirs (add_watch_result env) (entries env) [] (kernel0 env) in
    let '(_, v2) := append_queue_watcher v1 in
    match v2 with
    | [] => Stop (Exited 1)
    | _ :: _ =>
        let '(_, a1) := append_ratelimit_aggregator [] in
        Ok {| watchers := map (λ w, set_time w (clock σ1)) v2;
              aggregators := map (λ a, set_agg_time a (clock σ1)) a1;
              kernel := σ1; out := [] |}
    end.

(** The end of [main]: every descriptor of a watch is closed. *)
Definition teardown (st : plugin) : world :=
  foldl (λ σ w, sys_close σ (fd w)) (kernel st) (watchers st).

Definition main (fuel : nat) (env : environment) (polls : list poll_event)
  : halt :=
  match (st0 ← setup env; event_loop fuel st0 polls) with
  | Ok st => let _ := teardown st in Exited 0
  | Stop h => h
  end.

End Main.

(** ** The reader as a byte automaton

    What [read_log_file] is meant to compute, one byte of the stream at a
    time: [p] is the line collected so far, held in the first [buffered]
    bytes of the buffer.  The refinement lemmas below show that the code,
    whatever the sizes of the reads, follows this automaton. *)

Section Automaton.
Context {D : Type}.
Variable cap : nat.
Variable f : stat_func D.

(** A line reaches the collector unless the reader is skipping. *)
Definition deliver (sk : skip_state) (d : D) (l : list ascii) : D :=
  match sk with
  | DO_NOT_SKIP => process f (Some (c_str l)) d
  | SKIP_THE_REST => d
  end.

Definition rstate : Type := list ascii * skip_state * D.

Definition step_byte (st : rstate) (x : ascii) : rstate :=
  let '(p, sk, d) := st in
  if decide (x = LF) then ([], DO_NOT_SKIP, deliver sk d p)
  else if decide (S (length p) = cap)
       then ([], SKIP_THE_REST, deliver sk d p)
       else (p ++ [x], sk, d).

Definition run_bytes (st : rstate) (bs : list ascii) : rstate :=
  foldl step_byte st bs.

End Automaton.

(** The lines of a stream: [lines_from cur l] is the terminated lines of
    [cur ++ l], given that [cur] has no terminator, and the unterminated
    rest. *)
Fixpoint lines_from (cur l : list ascii) : list (list ascii) * list ascii :=
  match l with
  | [] => ([], cur)
  | x :: l' =>
      if decide (x = LF)
      then let '(ls, r) := lines_from [] l' in (cur :: ls, r)
      else lines_from (cur ++ [x]) l'
  end.

Definition stream_lines (l : list ascii) : list (list ascii) :=
  (lines_from [] l).1.
Definition stream_rest (l : list ascii) : list ascii :=
  (lines_from [] l).2.

(** The bytes a script delivers, all reads together. *)
Definition script_bytes (s : list read_event) : list ascii :=
  concat (map (λ e, match e with Avail bs => bs | Fail _ => [] end) s).

Section ReaderSpec.
Context {D : Type}.
Implicit Types (w : fs_watch D).

(** What the automaton sees of a watch. *)
Definition abs w : rstate (D := D) :=
  (take (buffered w) (buf w), skip w, data w).

(** The members of a watch that [read_log_file] never assigns. *)
Definition same_id w w' : Prop :=
  dir_name w' = dir_name w ∧ file_name w' = file_name w ∧
  type w' = type w ∧ watch_dir w' = watch_dir w ∧ fd w' = fd w ∧
  func w' = func w ∧ time w' = time w.

(** The same, and the size of the buffer. *)
Definition same_watch w w' : Prop :=
  dir_name w' = dir_name w ∧ file_name w' = file_name w ∧
  type w' = type w ∧ watch_dir w' = watch_dir w ∧ fd w' = fd w ∧
  func w' = func w ∧ time w' = time w ∧ length (buf w') = length (buf w).

(** The state between two reads: the collected line is shorter than the
    buffer and holds no terminator. *)
Definition reader_inv w : Prop :=
  (buffered w < length (buf w))%nat ∧ LF ∉ take (buffered w) (buf w).

End ReaderSpec.

(** What one call takes off a script: the runs of bytes up to the first
    read that returns 0 or fails, and that read. *)
Fixpoint call_bytes (s : list read_event) : list ascii :=
  match s with
  | Avail (x :: bs) :: s' => (x :: bs) ++ call_bytes s'
  | _ => []
  end.

Fixpoint call_rest (s : list read_event) : list read_event :=
  match s with
  | Avail (_ :: _) :: s' => call_rest s'
  | [] => []
  | _ :: s' => s'
  end.

Section Calls.
Context {D : Type}.

(** [n] calls of [read_log_file] in a row, as the timer makes them. *)
Fixpoint read_calls (n : nat) (w : fs_watch D) (σ : world)
  : option (fs_watch D * world) :=
  match n with
  | O => Some (w, σ)
  | S n' => '(_, w', σ') ← read_log_file w σ; read_calls n' w' σ'
  end.

(** A collector fed the lines [ls] one after the other. *)
Definition feed_lines (f : stat_func D) (d : D) (ls : list (list ascii)) : D :=
  foldl (λ d l, process f (Some l) d) d ls.

End Calls.

(** A way to stop other than [exit] or a return from [main]. *)
Definition no_exit (h : halt) : Prop :=
  match h with
  | Exited _ => False
  | _ => True
  end.

(** ** Values used to run the model *)

(** A collector that keeps, in order, every line it is handed. *)
Definition recorder : stat_func (list (option (list ascii))) :=
  {| init := Some [];
     print := λ _ _ _, 0;
     process := λ line d, d ++ [line];
     postprocess := None;
     clear := λ _, [];
     aggregate := None |}.

(** A log watch with a buffer of [cap] bytes on descriptor 3, and a
    kernel in which that descriptor will deliver [s]. *)
Definition demo_watch (cap : nat) : fs_watch (list (option (list ascii))) :=
  zeroed_watch cap (Some "send"%string) (Some "current"%string)
    WATCH_LOG_FILE 1 3 recorder [].

Definition demo_world (s : list read_event) : world :=
  {| fds := {[ 3 := s ]}; files := ∅; errno := 0; clock := 0 |}.

(** The data of a collector that has not faulted and holds [n] in its
    first counter. *)
Definition counted (n : Z) : option ratelimitspp_statistics :=
  Some {| conn_timeout := n; error := 0; ratelimited := 0 |}.

(** An [aggregate] callback as the design document describes it: it
    folds the block of a watch into that of the aggregator, counter by
    counter; a collector that has faulted stays so.  The sources define
    none. *)
Definition sum_statistics (a b : option ratelimitspp_statistics)
  : option ratelimitspp_statistics :=
  a ← a; b ← b;
  Some {| conn_timeout := conn_timeout a + conn_timeout b;
          error := error a + error b;
          ratelimited := ratelimited a + ratelimited b |}.

Definition with_aggregate {D : Type} (f : stat_func D) (g : D → D → D)
  : stat_func D :=
  {| init := init f; print := print f; process := process f;
     postprocess := postprocess f; clear := clear f;
     aggregate := Some g |}.

(** Two log watches that hold 3 and 5 in the same counter, with nothing
    to read on their descriptors. *)
Definition send_watch : fs_watch (option ratelimitspp_statistics) :=
  zeroed_watch 8 (Some "send"%string) (Some "current"%string)
    WATCH_LOG_FILE 1 3 (ratelimitspp true 0) (counted 3).

Definition smtp_watch : fs_watch (option ratelimitspp_statistics) :=
  zeroed_watch 8 (Some "smtp"%string) (Some "current"%string)
    WATCH_LOG_FILE 2 4 (ratelimitspp true 0) (counted 5).

Definition quiet_kernel : world :=
  {| fds := {[ 3 := []; 4 := [] ]}; files := ∅; errno := 0; clock := 10 |}.

(** An aggregator for log watches with the callback table [agg], as
    [append_ratelimit_aggregator] makes it. *)
Definition log_aggregator (agg : stat_func (option ratelimitspp_statistics))
  : fs_watch_aggregator (option ratelimitspp_statistics) :=
  {| agg_type := WATCH_LOG_FILE; agg_func := agg;
     agg_data := counted 0; agg_time := 0 |}.

(** The registry of the two watches and that aggregator. *)
Definition two_log_watches (agg : stat_func (option ratelimitspp_statistics))
  : plugin :=
  {| watchers := [send_watch; smtp_watch];
     aggregators := [log_aggregator agg];
     kernel := quiet_kernel;
     out := [] |}.

(** A table for the queue watch.  The collector of the queue is not
    among the sources at hand; this one counts the ticks in the first
    counter of its block and prints without failure. *)
Definition ticking : stat_func (option ratelimitspp_statistics) :=
  {| init := Some (counted 0);
     print := λ _ _ _, 0;
     process := λ _ data,
       (λ d, {| conn_timeout := int_incr (conn_timeout d);
                error := error d; ratelimited := ratelimited d |}) <$> data;
     postprocess := None;
     clear := fmap ratelimitspp_clear;
     aggregate := None |}.

(** The queue watch as [append_queue_watcher] makes it, with that
    table; and the registry that [main] builds in a directory with a
    [send] and an [smtp] log directory. *)
Definition queue_watch : fs_watch (option ratelimitspp_statistics) :=
  zeroed_watch 8 None None WATCH_QUEUE (-1) (-1) ticking (counted 0).

Definition three_watches (agg : stat_func (option ratelimitspp_statistics))
  : plugin :=
  {| watchers := [send_watch; smtp_watch; queue_watch];
     aggregators := [log_aggregator agg];
     kernel := quiet_kernel;
     out := [] |}.

(** A sink that has failed: a log watch that holds 3 and two
    aggregators, with an [aggregate] as above, whose [print] all return
    -1, the [EOF] of a failing [fflush]. *)
Definition unprinted_watch : fs_watch (option ratelimitspp_statistics) :=
  zeroed_watch 8 (Some "send"%string) (Some "current"%string)
    WATCH_LOG_FILE 1 3 (ratelimitspp true (-1)) (counted 3).

Definition unprinted_aggregator
  : fs_watch_aggregator (option ratelimitspp_statistics) :=
  log_aggregator (with_aggregate (ratelimitspp true (-1)) sum_statistics).

Definition failed_sink : plugin :=
  {| watchers := [unprinted_watch];
     aggregators := [unprinted_aggregator; unprinted_aggregator];
     kernel := quiet_kernel;
     out := [] |}.

(** A callback table whose [print] returns [rc], over a counter of
    ticks. *)
Definition printing (rc : Z) : stat_func Z :=
  {| init := Some 0;
     print := λ _ _ _, rc;
     process := λ _ d, d + 1;
     postprocess := None;
     clear := λ _, 0;
     aggregate := None |}.

(** A start of [main] in a directory without log directories, so that
    the queue watch is the only watch. *)
Definition bare_environment : environment :=
  {| chdir_ok := true; inotify_init_ok := true; opendir_ok := true;
     entries := []; add_watch_result := λ _, 1;
     kernel0 := {| fds := ∅; files := ∅; errno := 0; clock := 0 |} |}.

(** A kernel with one descriptor in use and the log file of the [send]
    directory in place. *)
Definition send_kernel : world :=
  {| fds := {[ 0 := [] ]};
     files := {[ "send/current"%string := lit "old" ]};
     errno := 0; clock := 0 |}.

(** ** Notions used in the further properties *)

(** [n] occurs in [h] as a run of consecutive bytes. *)
Definition occurs (n h : list ascii) : Prop :=
  ∃ pre post, h = pre ++ n ++ post.

(** A result of [poll] on which the loop of [main] does nothing: -1, 0,
    or a wake-up with none of the three descriptors readable. *)
Definition idle_poll (p : poll_event) : Prop :=
  match p with
  | PollError | PollTimeout => True
  | PollReady signal fs_event timer =>
      signal = false ∧ fs_event = None ∧ timer = false
  end.

Section CycleNotions.
Context {D : Type}.

(** What the loop over the aggregators prints for an aggregator, and
    what it leaves of it after a [print] that succeeds, at the time the
    kernel [σ] shows. *)
Definition aggregator_snapshot (σ : world) (a : fs_watch_aggregator D)
  : emission D :=
  AggregatorSnapshot (run_postprocess (agg_func a) (agg_data a))
    (clock σ - agg_time a).

Definition reset_aggregator (σ : world) (a : fs_watch_aggregator D)
  : fs_watch_aggregator D :=
  {| agg_type := agg_type a; agg_func := agg_func a;
     agg_data := clear (agg_func a)
                   (run_postprocess (agg_func a) (agg_data a));
     agg_time := clock σ |}.

(** The aggregator whose [print] has just failed: post-processed and
    stamped, but not reset. *)
Definition stamped_aggregator (σ : world) (a : fs_watch_aggregator D)
  : fs_watch_aggregator D :=
  {| agg_type := agg_type a; agg_func := agg_func a;
     agg_data := run_postprocess (agg_func a) (agg_data a);
     agg_time := clock σ |}.

(** A fresh log watch on the file [current] of one of the directory
    entries [es]: the entry is a directory, is not hidden and has [send]
    or [smtp] in its name; the table is that for [send] when [send]
    occurs in the name and that for [smtp] otherwise; the subscription
    has succeeded and the data is what the table allocates. *)
Definition log_dir_watch (buf_size : nat) (send_func smtp_func : stat_func D)
    (add_watch : string → Z) (es : list dirent) (w : fs_watch D) : Prop :=
  ∃ e, e ∈ es ∧
    dir_name w = Some (d_name e) ∧
    file_name w = Some "current"%string ∧
    type w = WATCH_LOG_FILE ∧
    watch_dir w = add_watch (d_name e) ∧ watch_dir w ≠ -1 ∧
    buf w = replicate buf_size NUL ∧ buffered w = 0%nat ∧
    skip w = DO_NOT_SKIP ∧ init (func w) = Some (data w) ∧
    is_directory e = 1 ∧ head (lit (d_name e)) ≠ Some "."%char ∧
    ((occurs (lit "send") (lit (d_name e)) ∧ func w = send_func) ∨
     (¬ occurs (lit "send") (lit (d_name e)) ∧
      occurs (lit "smtp") (lit (d_name e)) ∧ func w = smtp_func)).

End CycleNotions.

(** * Part II: properties *)

(** ** Basic facts about the byte primitives *)

Lemma memchr_None l c : memchr l c = None ↔ c ∉ l.
Proof.
  induction l as [|x l IH]; simpl.
  - split; [intros _; apply not_elem_of_nil | done].
  - destruct (decide (x = c)) as [->|Hne].
    + split; [done | intros H; exfalso; apply H; left].
    + rewrite not_elem_of_cons. destruct (memchr l c); simpl.
      * split; [done | intros [_ H]; apply IH in H; done].
      * split; [intros _; split; [congruence | by apply IH] | done].
Qed.

Lemma memchr_Some l c k :
  memchr l c = Some k →
  l = take k l ++ c :: drop (S k) l ∧ (c ∉ take k l) ∧ (k < length l)%nat.
Proof.
  revert k. induction l as [|x l IH]; intros k; simpl; [done|].
  destruct (decide (x = c)) as [->|Hne].
  - intros [= <-]. simpl. rewrite drop_0. split_and!; [done | apply not_elem_of_nil | lia].
  - destruct (memchr l c) as [k'|] eqn:E; simpl; [|done].
    intros [= <-]. destruct (IH k' eq_refl) as (H1 & H2 & H3). simpl.
    split_and!; [by rewrite <- H1 | | lia].
    rewrite not_elem_of_cons. split; [congruence | done].
Qed.

Lemma c_str_app_NUL l1 l2 : c_str (l1 ++ NUL :: l2) = c_str l1.
Proof.
  induction l1 as [|x l1 IH]; simpl; [done|].
  destruct (decide (x = NUL)); [done | by rewrite IH].
Qed.

Lemma c_str_no_NUL l : NUL ∉ l → c_str l = l.
Proof.
  induction l as [|x l IH]; simpl; [done|].
  rewrite not_elem_of_cons. intros [Hx Hl].
  rewrite decide_False by congruence. by rewrite IH.
Qed.

Lemma fmap_c_str_no_NUL (ls : list (list ascii)) :
  Forall (λ l, NUL ∉ l) ls → c_str <$> ls = ls.
Proof.
  induction 1 as [|l ls Hl _ IH]; [done|].
  rewrite fmap_cons. f_equal; [by apply c_str_no_NUL | done].
Qed.

(** The recording collector ends with the lines it was fed, in order. *)
Lemma feed_lines_recorder (ls : list (list ascii)) : ∀ d,
  feed_lines recorder d ls = d ++ (Some <$> ls).
Proof.
  unfold feed_lines.
  induction ls as [|l ls IH]; intros d; simpl; [by rewrite app_nil_r|].
  by rewrite IH, <- app_assoc.
Qed.

Lemma length_store b off bs :
  (off + length bs ≤ length b)%nat → length (store b off bs) = length b.
Proof.
  intros H. unfold store. rewrite !length_app, length_take, length_drop. lia.
Qed.

Lemma take_store b off bs :
  (off ≤ length b)%nat →
  take (length bs + off) (store b off bs) = take off b ++ bs.
Proof.
  intros H. unfold store.
  rewrite app_assoc, take_app_length'; [done|].
  rewrite length_app, length_take. lia.
Qed.

(** ** Facts about the automaton *)

Section AutomatonFacts.
Context {D : Type}.
Variable cap : nat.
Variable f : stat_func D.
Implicit Types (p seg bs : list ascii) (sk : skip_state) (d : D).

Lemma run_bytes_app st bs1 bs2 :
  run_bytes cap f st (bs1 ++ bs2) = run_bytes cap f (run_bytes cap f st bs1) bs2.
Proof. apply foldl_app. Qed.

(** Behind a terminator the reader stands at the start of a line and
    does not skip, whatever came before. *)
Lemma run_bytes_line_start st bs :
  ∃ d, run_bytes cap f st (bs ++ [LF]) = ([], DO_NOT_SKIP, d).
Proof.
  rewrite run_bytes_app.
  destruct (run_bytes cap f st bs) as [[p sk] d].
  by exists (deliver f sk d p).
Qed.

(** Bytes of an unfinished line that still fits are just collected. *)
Lemma run_bytes_collect seg : ∀ p sk d,
  LF ∉ seg → (length p + length seg < cap)%nat →
  run_bytes cap f (p, sk, d) seg = (p ++ seg, sk, d).
Proof.
  unfold run_bytes.
  induction seg as [|x seg IH]; intros p sk d Hlf Hlen; simpl.
  - by rewrite app_nil_r.
  - apply not_elem_of_cons in Hlf as [Hx Hseg]. simpl in Hlen.
    rewrite decide_False by congruence.
    rewrite decide_False by lia.
    rewrite IH; [|done|rewrite length_app; simpl; lia].
    by rewrite <- app_assoc.
Qed.

(** The byte that fills the buffer flushes it: the line is cut to
    [cap - 1] bytes and the reader starts skipping. *)
Lemma run_bytes_fill seg : ∀ p sk d,
  LF ∉ seg → seg ≠ [] → (length p + length seg = cap)%nat →
  run_bytes cap f (p, sk, d) seg
  = ([], SKIP_THE_REST, deliver f sk d (take (cap - 1) (p ++ seg))).
Proof.
  intros p sk d Hlf Hne Hlen.
  destruct (exists_last Hne) as (seg' & x & ->).
  apply not_elem_of_app in Hlf as [Hseg' Hx].
  apply not_elem_of_cons in Hx as [Hx _].
  rewrite length_app in Hlen. simpl in Hlen.
  rewrite run_bytes_app, run_bytes_collect by (done || lia). simpl.
  rewrite decide_False by congruence.
  rewrite decide_True by (rewrite length_app; lia).
  rewrite app_assoc, take_app_length'; [done|].
  rewrite length_app. lia.
Qed.

End AutomatonFacts.

(** ** The code refines the automaton *)

Section Refinement.
Context {D : Type}.
Implicit Types (w : fs_watch D) (σ : world).

Lemma same_watch_refl w : same_watch w w.
Proof. by repeat split. Qed.

Lemma same_watch_trans w1 w2 w3 :
  same_watch w1 w2 → same_watch w2 w3 → same_watch w1 w3.
Proof.
  unfold same_watch. intros (?&?&?&?&?&?&?&?) (?&?&?&?&?&?&?&?).
  repeat split; congruence.
Qed.

Lemma scan_lines_refines fuel : ∀ w line ret,
  (0 < length (buf w))%nat →
  (line ≤ ret)%nat → (ret ≤ length (buf w))%nat → (ret - line < fuel)%nat →
  buffered w = 0%nat →
  ∃ w', scan_lines fuel w line ret = Some w' ∧ same_watch w w' ∧
        abs w' = run_bytes (length (buf w)) (func w) ([], skip w, data w)
                   (take (ret - line) (drop line (buf w))).
Proof.
  induction fuel as [|fuel IH]; intros w line ret Hpos Hle Hret Hfuel Hb; [lia|].
  simpl.
  set (span := take (ret - line) (drop line (buf w))).
  assert (Hspan : length span = (ret - line)%nat).
  { unfold span. rewrite length_take, length_drop. lia. }
  destruct (memchr span LF) as [k|] eqn:Hm.
  - apply memchr_Some in Hm as (Hsplit & Hnolf & Hk).
    match goal with |- context [scan_lines fuel ?x _ _] => set (w2 := x) end.
    assert (Hseg : take k span = take k (drop line (buf w))).
    { unfold span. rewrite take_take. f_equal. lia. }
    assert (Hstr : c_str (drop line (<[(line + k)%nat:=NUL]> (buf w)))
                   = c_str (take k span)).
    { rewrite drop_insert_ge by lia.
      rewrite insert_take_drop by (rewrite length_drop; lia).
      replace (line + k - line)%nat with k by lia.
      by rewrite c_str_app_NUL, Hseg. }
    assert (Hw2 : same_watch w w2 ∧ buffered w2 = 0%nat ∧
                  buf w2 = <[(line + k)%nat:=NUL]> (buf w) ∧
                  skip w2 = DO_NOT_SKIP ∧
                  data w2 = deliver (func w) (skip w) (data w) (take k span)).
    { unfold w2, dispatch, same_watch. simpl.
      destruct (skip w) eqn:Hsk; simpl; rewrite ?Hstr, ?length_insert, ?Hsk; done. }
    destruct Hw2 as (Hsame & Hb2 & Hbuf2 & Hsk2 & Hd2).
    assert (Hlen2 : length (buf w2) = length (buf w)) by apply Hsame.
    destruct (IH w2 (line + k + 1)%nat ret) as (w' & Hrun & Hsame' & Habs);
      [lia | lia | lia | lia | done |].
    exists w'. split; [done|]. split; [by eapply same_watch_trans|].
    rewrite Habs, Hlen2.
    assert (Hfunc : func w2 = func w) by apply Hsame. rewrite Hfunc.
    assert (Hrhs : run_bytes (length (buf w)) (func w) ([], skip w, data w) span
                   = run_bytes (length (buf w)) (func w)
                       ([], DO_NOT_SKIP,
                        deliver (func w) (skip w) (data w) (take k span))
                       (drop (S k) span)).
    { rewrite Hsplit at 1. rewrite run_bytes_app.
      rewrite run_bytes_collect by (done || (rewrite length_take; simpl; lia)).
      done. }
    fold span. rewrite Hrhs, Hsk2, Hd2.
    f_equal. rewrite Hbuf2, drop_insert_lt by lia.
    unfold span. rewrite skipn_firstn_comm, drop_drop.
    f_equal; [lia | f_equal; lia].
  - apply memchr_None in Hm.
    destruct (decide (0 < ret - line ∧ ret - line < length (buf w))%nat)
      as [[H0 Hlt]|Hn].
    + eexists. split; [done|]. split.
      * repeat split; try done. simpl. unfold memmove.
        rewrite length_app, length_take, !length_drop. lia.
      * unfold abs. simpl. unfold memmove.
        rewrite take_app_length' by (rewrite length_take, length_drop; lia).
        fold span. by rewrite run_bytes_collect by (done || simpl; lia).
    + destruct (decide ((ret - line)%nat = length (buf w))) as [Hfull|Hnf].
      * assert (line = 0%nat) by lia. subst line.
        assert (Hsp : span = buf w).
        { unfold span. rewrite drop_0, take_ge; [done|lia]. }
        eexists. split; [done|]. split.
        { destruct (skip w); repeat split; try done; simpl;
            by rewrite length_insert. }
        rewrite run_bytes_fill; [| done | | simpl; lia]; cycle 1.
        { intros E. rewrite E in Hspan. simpl in Hspan. lia. }
        unfold abs. simpl. rewrite Hsp.
        assert (Hstr : c_str (<[(length (buf w) - 1)%nat:=NUL]> (buf w))
                       = c_str (take (length (buf w) - 1) (buf w))).
        { rewrite insert_take_drop by lia. by rewrite c_str_app_NUL. }
        destruct (skip w); simpl; rewrite Hb, ?drop_0, ?Hstr; done.
      * assert (ret = line) by lia. subst ret.
        exists w. split; [done|]. split; [apply same_watch_refl|].
        unfold abs. rewrite Hb. unfold span.
        replace (line - line)%nat with 0%nat by lia. by rewrite !take_0.
Qed.

Lemma run_bytes_inv cap (f : stat_func D) bs : ∀ p sk d,
  (length p < cap)%nat → LF ∉ p →
  (length (run_bytes cap f (p, sk, d) bs).1.1 < cap)%nat ∧
  LF ∉ (run_bytes cap f (p, sk, d) bs).1.1.
Proof.
  unfold run_bytes.
  induction bs as [|x bs IH]; intros p sk d Hlen Hlf; simpl; [done|].
  destruct (decide (x = LF)); [apply IH; [simpl; lia | apply not_elem_of_nil]|].
  destruct (decide (S (length p) = cap)).
  - apply IH; [simpl; lia | apply not_elem_of_nil].
  - apply IH; [rewrite length_app; simpl; lia|].
    rewrite not_elem_of_app, not_elem_of_cons. split_and!; try done.
    apply not_elem_of_nil.
Qed.

(** A read that fits is always absorbed, and what is left in the buffer
    is again shorter than the buffer and free of terminators. *)
Lemma absorb_total w bs :
  (buffered w < length (buf w))%nat →
  (length bs ≤ length (buf w) - buffered w)%nat →
  ∃ w', absorb w bs = Some w' ∧ same_watch w w' ∧ reader_inv w' ∧
        abs w' = run_bytes (length (buf w)) (func w) ([], skip w, data w)
                   (take (buffered w) (buf w) ++ bs).
Proof.
  intros Hb Hbs. unfold absorb.
  set (w1 := set_buffered (set_buf w (store (buf w) (buffered w) bs)) 0).
  assert (Hlen1 : length (buf w1) = length (buf w)).
  { simpl. apply length_store. lia. }
  destruct (scan_lines_refines (S (length bs + buffered w)) w1 0
              (length bs + buffered w)) as (w' & Hrun & Hsame & Habs);
    [lia | lia | lia | lia | done |].
  assert (Hsame' : same_watch w w').
  { eapply same_watch_trans; [|exact Hsame]. by repeat split. }
  rewrite Hlen1 in Habs. simpl in Habs.
  rewrite drop_0, Nat.sub_0_r, take_store in Habs by lia.
  exists w'. split; [exact Hrun|]. split; [done|]. split; [|done].
  destruct (run_bytes_inv (length (buf w)) (func w)
              (take (buffered w) (buf w) ++ bs) [] (skip w) (data w))
    as [Hl Hn]; [simpl; lia | apply not_elem_of_nil |].
  unfold abs in Habs. rewrite <- Habs in Hl, Hn. simpl in Hl, Hn.
  assert (Hlen' : length (buf w') = length (buf w)) by apply Hsame'.
  split; [|done]. rewrite length_take in Hl. lia.
Qed.

Lemma absorb_refines w bs :
  reader_inv w → (length bs ≤ length (buf w) - buffered w)%nat →
  ∃ w', absorb w bs = Some w' ∧ same_watch w w' ∧ reader_inv w' ∧
        abs w' = run_bytes (length (buf w)) (func w) (abs w) bs.
Proof.
  intros [Hb Hlf] Hbs.
  destruct (absorb_total w bs Hb Hbs) as (w' & Hrun & Hsame & Hinv & Habs).
  exists w'. split_and!; try done.
  rewrite Habs, run_bytes_app, run_bytes_collect; [done | done |].
  simpl. rewrite length_take. lia.
Qed.

Lemma call_bytes_Avail bs s :
  bs ≠ [] → call_bytes (Avail bs :: s) = bs ++ call_bytes s.
Proof. by destruct bs. Qed.

Lemma call_rest_Avail bs s :
  bs ≠ [] → call_rest (Avail bs :: s) = call_rest s.
Proof. by destruct bs. Qed.

Lemma read_loop_refines fuel : ∀ w σ s,
  fds σ !! fd w = Some s → (script_size s < fuel)%nat → reader_inv w →
  ∃ w' σ', read_loop fuel w σ = Some (w', σ') ∧ same_watch w w' ∧
           reader_inv w' ∧
           abs w' = run_bytes (length (buf w)) (func w) (abs w) (call_bytes s) ∧
           fds σ' = <[fd w := call_rest s]> (fds σ) ∧ files σ' = files σ.
Proof.
  induction fuel as [|fuel IH]; intros w σ s Hfd Hfuel Hinv; [lia|].
  simpl. unfold sys_read. rewrite Hfd.
  destruct s as [|[bs|e] s'].
  - simpl. exists w, (set_fds σ (<[fd w:=[]]> (fds σ))).
    repeat split; try done; apply Hinv.
  - set (count := (length (buf w) - buffered w)%nat).
    assert (Hcount : (0 < count)%nat) by (destruct Hinv; unfold count; lia).
    simpl. destruct (decide (length bs ≤ count)%nat) as [Hfit|Hbig].
    + destruct bs as [|x bs].
      * simpl. exists w, (set_fds σ (<[fd w:=s']> (fds σ))).
        repeat split; try done; apply Hinv.
      * rewrite decide_True by (simpl; lia).
        destruct (absorb_refines w (x :: bs) Hinv Hfit)
          as (w1 & Hab & Hsame1 & Hinv1 & Habs1).
        rewrite Hab. simpl.
        assert (Hfd1 : fd w1 = fd w) by apply Hsame1.
        destruct (IH w1 (set_fds σ (<[fd w:=s']> (fds σ))) s')
          as (w' & σ' & Hrun & Hsame & Hinv' & Habs & Hfds & Hfiles).
        { simpl. by rewrite Hfd1, lookup_insert_eq. }
        { simpl in Hfuel. lia. }
        { done. }
        exists w', σ'. split; [done|]. split; [by eapply same_watch_trans|].
        split; [done|].
        assert (Hlen1 : length (buf w1) = length (buf w)) by apply Hsame1.
        assert (Hfunc1 : func w1 = func w) by apply Hsame1.
        rewrite Habs, Habs1, Hlen1, Hfunc1, <- run_bytes_app.
        split; [done|]. rewrite Hfds, Hfd1. simpl.
        by rewrite insert_insert_eq.
    + assert (Hne : bs ≠ []) by (intros ->; simpl in Hbig; lia).
      rewrite decide_True by lia.
      destruct (absorb_refines w (take count bs) Hinv)
        as (w1 & Hab & Hsame1 & Hinv1 & Habs1).
      { rewrite length_take. unfold count. lia. }
      rewrite Hab. simpl.
      assert (Hfd1 : fd w1 = fd w) by apply Hsame1.
      assert (Hdrop : drop count bs ≠ []).
      { intros E. apply (f_equal length) in E. rewrite length_drop in E.
        simpl in E. lia. }
      destruct (IH w1 (set_fds σ (<[fd w:=Avail (drop count bs) :: s']> (fds σ)))
                  (Avail (drop count bs) :: s'))
        as (w' & σ' & Hrun & Hsame & Hinv' & Habs & Hfds & Hfiles).
      { simpl. by rewrite Hfd1, lookup_insert_eq. }
      { simpl in Hfuel |- *. rewrite length_drop. lia. }
      { done. }
      exists w', σ'. split; [done|]. split; [by eapply same_watch_trans|].
      split; [done|].
      assert (Hlen1 : length (buf w1) = length (buf w)) by apply Hsame1.
      assert (Hfunc1 : func w1 = func w) by apply Hsame1.
      rewrite Habs, Habs1, Hlen1, Hfunc1, <- run_bytes_app.
      rewrite !call_bytes_Avail, !call_rest_Avail in * by done.
      rewrite app_assoc, take_drop.
      rewrite Hfds, Hfd1. simpl. rewrite insert_insert_eq.
      by destruct bs.
  - simpl. exists w, (set_errno (set_fds σ (<[fd w:=s']> (fds σ))) e).
    repeat split; try done; apply Hinv.
Qed.

End Refinement.

(** ** [read_log_file] as a whole *)

Section ReaderFacts.
Context {D : Type}.
Implicit Types (w : fs_watch D) (σ : world).

Lemma read_fuel_enough σ (fd : Z) s :
  fds σ !! fd = Some s → (script_size s < read_fuel σ fd)%nat.
Proof. intros H. unfold read_fuel. rewrite H. simpl. lia. Qed.

(** A call on an open descriptor, from a state between two reads: it
    returns, runs the automaton over the bytes it took and leaves the
    rest of the script. *)
Lemma read_log_file_refines w σ s :
  fd w ≠ -1 → fds σ !! fd w = Some s → reader_inv w →
  ∃ w' σ', read_log_file w σ = Some (ND_SUCCESS, w', σ') ∧ same_watch w w' ∧
           reader_inv w' ∧
           abs w' = run_bytes (length (buf w)) (func w) (abs w) (call_bytes s) ∧
           fds σ' = <[fd w := call_rest s]> (fds σ) ∧ files σ' = files σ.
Proof.
  intros Hfd Hs Hinv. unfold read_log_file. rewrite decide_False by done.
  destruct (read_loop_refines (read_fuel σ (fd w)) w σ s Hs
              (read_fuel_enough _ _ _ Hs) Hinv)
    as (w' & σ' & Hrun & Hrest).
  exists w', σ'. by rewrite Hrun.
Qed.

End ReaderFacts.

(** ** Lines of a stream and the automaton *)

Lemma lines_from_length l : ∀ cur,
  match (lines_from cur l).1 with
  | [] => (length cur ≤ length (lines_from cur l).2)%nat
  | l1 :: _ => (length cur ≤ length l1)%nat
  end.
Proof.
  induction l as [|x l IH]; intros cur; simpl; [done|].
  destruct (decide (x = LF)).
  - destruct (lines_from [] l); simpl. done.
  - specialize (IH (cur ++ [x])). rewrite length_app in IH. simpl in IH.
    destruct (lines_from (cur ++ [x]) l).1; lia.
Qed.

Lemma lines_from_elem l : ∀ cur c,
  c ∉ cur → c ∉ l →
  Forall (λ l1, c ∉ l1) (lines_from cur l).1 ∧ c ∉ (lines_from cur l).2.
Proof.
  induction l as [|x l IH]; intros cur c Hcur Hl; simpl; [by split|].
  apply not_elem_of_cons in Hl as [Hx Hl].
  destruct (decide (x = LF)).
  - destruct (IH [] c (not_elem_of_nil c) Hl) as [H1 H2].
    destruct (lines_from [] l); simpl in *. split; [by constructor|done].
  - apply IH; [|done]. rewrite not_elem_of_app, not_elem_of_cons.
    split_and!; try done. apply not_elem_of_nil.
Qed.

Section Lines.
Context {D : Type}.
Variable cap : nat.
Variable f : stat_func D.

(** On a stream whose lines all fit, the automaton hands every
    terminated line to the collector, in order, and keeps the rest. *)
Lemma run_bytes_lines l : ∀ cur d,
  Forall (λ l1, (length l1 < cap)%nat) (lines_from cur l).1 →
  (length (lines_from cur l).2 < cap)%nat →
  run_bytes cap f (cur, DO_NOT_SKIP, d) l
  = ((lines_from cur l).2, DO_NOT_SKIP,
     feed_lines f d (c_str <$> (lines_from cur l).1)).
Proof.
  unfold run_bytes, feed_lines.
  induction l as [|x l IH]; intros cur d Hls Hr; simpl in *; [done|].
  destruct (decide (x = LF)) as [->|Hx].
  - specialize (IH [] (process f (Some (c_str cur)) d)).
    destruct (lines_from [] l) as [ls r]; simpl in *.
    inversion_clear Hls as [|? ? _ Hls']. by rewrite IH.
  - pose proof (lines_from_length l (cur ++ [x])) as Hlen.
    rewrite length_app in Hlen. simpl in Hlen.
    rewrite decide_False; [by apply IH|].
    destruct (lines_from (cur ++ [x]) l) as [[|l1 ls] r]; simpl in *.
    + lia.
    + inversion_clear Hls as [|? ? Hl1 _]. lia.
Qed.

(** While it skips, the automaton drops everything up to the next
    terminator, however long that takes, and hands nothing over. *)
Lemma run_bytes_skip rest : ∀ p d,
  LF ∉ rest →
  run_bytes cap f (p, SKIP_THE_REST, d) (rest ++ [LF]) = ([], DO_NOT_SKIP, d).
Proof.
  unfold run_bytes.
  induction rest as [|x rest IH]; intros p d Hlf; simpl; [done|].
  apply not_elem_of_cons in Hlf as [Hx Hrest].
  rewrite decide_False by congruence.
  destruct (decide (S (length p) = cap)); simpl; by apply IH.
Qed.

Lemma run_bytes_skip_more rest : ∀ p d,
  LF ∉ rest →
  (run_bytes cap f (p, SKIP_THE_REST, d) rest).1.2 = SKIP_THE_REST ∧
  (run_bytes cap f (p, SKIP_THE_REST, d) rest).2 = d.
Proof.
  unfold run_bytes.
  induction rest as [|x rest IH]; intros p d Hlf; simpl; [done|].
  apply not_elem_of_cons in Hlf as [Hx Hrest].
  rewrite decide_False by congruence.
  destruct (decide (S (length p) = cap)); simpl; by apply IH.
Qed.

End Lines.

(** ** Several calls in a row *)

Lemma script_bytes_call s :
  script_bytes s = call_bytes s ++ script_bytes (call_rest s).
Proof.
  induction s as [|[[|x bs]|e] s IH]; simpl; try done.
  unfold script_bytes in *. simpl. rewrite IH. by rewrite <- app_assoc.
Qed.

Lemma call_rest_length s : (length (call_rest s) ≤ length s - 1)%nat.
Proof.
  induction s as [|[[|x bs]|e] s IH]; simpl; lia.
Qed.

Section CallsFacts.
Context {D : Type}.
Implicit Types (w : fs_watch D) (σ : world).

(** As many calls as the script has reads take all of it, whatever the
    sizes of the reads and wherever a call ends. *)
Lemma read_calls_refines n : ∀ w σ s,
  fd w ≠ -1 → fds σ !! fd w = Some s → reader_inv w → (length s ≤ n)%nat →
  ∃ w' σ', read_calls n w σ = Some (w', σ') ∧ same_watch w w' ∧
           reader_inv w' ∧
           abs w' = run_bytes (length (buf w)) (func w) (abs w) (script_bytes s) ∧
           fds σ' !! fd w = Some [].
Proof.
  induction n as [|n IH]; intros w σ s Hfd Hs Hinv Hn.
  - destruct s; [|simpl in Hn; lia].
    exists w, σ. split_and!; done || apply same_watch_refl.
  - simpl.
    destruct (read_log_file_refines w σ s Hfd Hs Hinv)
      as (w1 & σ1 & Hcall & Hsame1 & Hinv1 & Habs1 & Hfds1 & _).
    rewrite Hcall. simpl.
    assert (Hfd1 : fd w1 = fd w) by apply Hsame1.
    destruct (IH w1 σ1 (call_rest s)) as (w' & σ' & Hrun & Hsame & Hinv' & Habs & Hfds).
    { by rewrite Hfd1. }
    { by rewrite Hfd1, Hfds1, lookup_insert_eq. }
    { done. }
    { pose proof (call_rest_length s). lia. }
    exists w', σ'. split; [done|]. split; [by eapply same_watch_trans|].
    split; [done|]. rewrite <- Hfd1. split; [|done].
    assert (Hlen1 : length (buf w1) = length (buf w)) by apply Hsame1.
    assert (Hfunc1 : func w1 = func w) by apply Hsame1.
    rewrite Habs, Habs1, Hlen1, Hfunc1, <- run_bytes_app.
    by rewrite <- script_bytes_call.
Qed.

End CallsFacts.

(** ** The reader: statements of the design document *)

Section ReaderClaims.
Context {D : Type}.
Implicit Types (w : fs_watch D) (σ : world).

(** A call returns from any state whose [buffered] is below the buffer
    size, and leaves such a state. *)
Lemma read_loop_total fuel w σ :
  (buffered w < length (buf w))%nat →
  (script_size (default [] (fds σ !! fd w)) < fuel)%nat →
  ∃ w' σ', read_loop fuel w σ = Some (w', σ') ∧ same_watch w w' ∧
           (buffered w' < length (buf w'))%nat.
Proof.
  intros Hb Hfuel. destruct fuel as [|fuel]; [lia|].
  simpl. unfold sys_read.
  destruct (fds σ !! fd w) as [s|] eqn:Hs; simpl in *.
  - destruct s as [|[bs|e] s'].
    + simpl. eexists _, _. split; [done|]. split; [apply same_watch_refl|done].
    + set (count := (length (buf w) - buffered w)%nat).
      simpl. destruct (decide (length bs ≤ count)%nat) as [Hfit|Hbig].
      * destruct bs as [|x bs].
        { simpl. eexists _, _. split; [done|].
          split; [apply same_watch_refl|done]. }
        rewrite decide_True by (simpl; lia).
        destruct (absorb_total w (x :: bs) Hb Hfit)
          as (w1 & Hab & Hsame1 & Hinv1 & _).
        rewrite Hab. simpl.
        assert (Hfd1 : fd w1 = fd w) by apply Hsame1.
        destruct (read_loop_refines fuel w1
                    (set_fds σ (<[fd w:=s']> (fds σ))) s')
          as (w' & σ' & Hrun & Hsame & Hinv' & _).
        { simpl. by rewrite Hfd1, lookup_insert_eq. }
        { simpl in Hfuel. lia. }
        { done. }
        exists w', σ'. split; [done|].
        split; [by eapply same_watch_trans | apply Hinv'].
      * rewrite decide_True by (unfold count; lia).
        destruct (absorb_total w (take count bs) Hb)
          as (w1 & Hab & Hsame1 & Hinv1 & _).
        { rewrite length_take. unfold count. lia. }
        rewrite Hab. simpl.
        assert (Hfd1 : fd w1 = fd w) by apply Hsame1.
        destruct (read_loop_refines fuel w1
                    (set_fds σ (<[fd w:=Avail (drop count bs) :: s']> (fds σ)))
                    (Avail (drop count bs) :: s'))
          as (w' & σ' & Hrun & Hsame & Hinv' & _).
        { simpl. by rewrite Hfd1, lookup_insert_eq. }
        { simpl in Hfuel |- *. rewrite length_drop. unfold count in *. lia. }
        { done. }
        exists w', σ'. split; [done|].
        split; [by eapply same_watch_trans | apply Hinv'].
    + simpl. eexists _, _. split; [done|]. split; [apply same_watch_refl|done].
  - eexists _, _. split; [done|]. split; [apply same_watch_refl|done].
Qed.

(** C7.  After every call of [read_log_file] the stored [buffered] is
    below the size of the buffer: a call made in such a state returns,
    leaves the size of the buffer as it was, and leaves [buffered]
    strictly below it. *)
Theorem buffered_below_capacity w σ :
  (buffered w < length (buf w))%nat →
  ∃ e w' σ', read_log_file w σ = Some (e, w', σ') ∧
             length (buf w') = length (buf w) ∧
             (0 ≤ buffered w' < length (buf w'))%nat.
Proof.
  intros Hb. unfold read_log_file.
  destruct (decide (fd w = -1)).
  - exists ND_FILE, w, σ. split; [done|]. split; [done|lia].
  - destruct (read_loop_total (read_fuel σ (fd w)) w σ Hb)
      as (w' & σ' & Hrun & Hsame & Hb').
    { unfold read_fuel. lia. }
    exists ND_SUCCESS, w', σ'. rewrite Hrun. split; [done|].
    split; [apply Hsame | lia].
Qed.


Lemma abs_nil_buffered w p sk d :
  abs w = (p, sk, d) → (buffered w < length (buf w))%nat →
  take (buffered w) (buf w) = p ∧ skip w = sk ∧ data w = d ∧
  (p = [] → buffered w = 0%nat).
Proof.
  unfold abs. intros [= Hp Hsk Hd] Hb. split_and!; try done.
  intros ->. apply (f_equal length) in Hp. rewrite length_take in Hp.
  simpl in Hp. lia.
Qed.

(** C1.  Take a stream in which every line, the unterminated end
    included, is shorter than the buffer, and let it arrive through the
    descriptor in any way at all: cut into reads of any sizes, with reads
    that return 0 or fail in between, over any number of calls.  From a
    fresh reader state, the calls leave the collector as if it had been
    handed the terminated lines of the whole stream, each once and in
    order, and the unterminated end waits in the buffer.  A line is
    handed over as a C string; when the stream has no NUL byte that is
    the line itself. *)
Theorem fragmentation_independence w σ (s : list read_event) (n : nat) :
  fd w ≠ -1 → fds σ !! fd w = Some s →
  buffered w = 0%nat → skip w = DO_NOT_SKIP →
  Forall (λ l, (length l < length (buf w))%nat)
         (stream_lines (script_bytes s)) →
  (length (stream_rest (script_bytes s)) < length (buf w))%nat →
  (length s ≤ n)%nat →
  ∃ w' σ',
    read_calls n w σ = Some (w', σ') ∧
    data w' = feed_lines (func w) (data w)
                (c_str <$> stream_lines (script_bytes s)) ∧
    (NUL ∉ script_bytes s →
     data w' = feed_lines (func w) (data w) (stream_lines (script_bytes s))) ∧
    take (buffered w') (buf w') = stream_rest (script_bytes s) ∧
    skip w' = DO_NOT_SKIP.
Proof.
  intros Hfd Hs Hb Hsk Hlines Hrest Hn.
  assert (Hinv : reader_inv w).
  { split; [lia|]. rewrite Hb, take_0. apply not_elem_of_nil. }
  destruct (read_calls_refines n w σ s Hfd Hs Hinv Hn)
    as (w' & σ' & Hrun & Hsame & Hinv' & Habs & _).
  unfold abs at 2 in Habs. rewrite Hb, take_0, Hsk in Habs.
  rewrite run_bytes_lines in Habs by done.
  destruct (abs_nil_buffered w' _ _ _ Habs) as (Hp & Hsk' & Hd & _);
    [apply Hinv'|].
  exists w', σ'. split_and!; try done.
  intros Hnul. rewrite Hd. f_equal.
  destruct (lines_from_elem (script_bytes s) [] NUL (not_elem_of_nil _) Hnul)
    as [Hall _].
  by apply fmap_c_str_no_NUL.
Qed.

(** C3.  Let the reader, not skipping, come to hold a buffer full of
    bytes with no terminator among them.  It hands that span to the
    collector once, cut to one byte less than the buffer size, turns to
    skipping and empties the buffer.  What follows of the line, up to and
    including the next terminator and however it is cut into reads, is
    dropped: the collector is handed nothing more, and the reader is
    back to normal after the terminator. *)
Theorem overlong_line_truncated_once w σ (s : list read_event) (n : nat)
    (span rest : list ascii) :
  fd w ≠ -1 → fds σ !! fd w = Some s →
  reader_inv w → skip w = DO_NOT_SKIP →
  LF ∉ span → span ≠ [] →
  (buffered w + length span = length (buf w))%nat →
  LF ∉ rest → (length s ≤ n)%nat →
  let full := take (buffered w) (buf w) ++ span in
  let cut := take (length (buf w) - 1) full in
  (script_bytes s = span →
   ∃ w' σ', read_calls n w σ = Some (w', σ') ∧
            data w' = process (func w) (Some (c_str cut)) (data w) ∧
            skip w' = SKIP_THE_REST ∧ buffered w' = 0%nat) ∧
  (script_bytes s = span ++ rest ++ [LF] →
   ∃ w' σ', read_calls n w σ = Some (w', σ') ∧
            data w' = process (func w) (Some (c_str cut)) (data w) ∧
            skip w' = DO_NOT_SKIP ∧ buffered w' = 0%nat) ∧
  (NUL ∉ full → c_str cut = cut ∧ length cut = (length (buf w) - 1)%nat).
Proof.
  intros Hfd Hs Hinv Hsk Hspan Hne Hfill Hrest Hn full cut.
  destruct (read_calls_refines n w σ s Hfd Hs Hinv Hn)
    as (w' & σ' & Hrun & Hsame & Hinv' & Habs & _).
  assert (Hp : length (take (buffered w) (buf w)) = buffered w).
  { rewrite length_take. destruct Hinv. lia. }
  assert (Hfull : run_bytes (length (buf w)) (func w) (abs w) span
                  = ([], SKIP_THE_REST,
                     process (func w) (Some (c_str cut)) (data w))).
  { unfold abs. rewrite run_bytes_fill by (done || lia). by rewrite Hsk. }
  split_and!.
  - intros E. rewrite E, Hfull in Habs.
    destruct (abs_nil_buffered w' _ _ _ Habs) as (_ & Hsk' & Hd & Hb');
      [apply Hinv'|].
    exists w', σ'. split_and!; try done. by apply Hb'.
  - intros E. rewrite E, run_bytes_app, Hfull, run_bytes_skip in Habs by done.
    destruct (abs_nil_buffered w' _ _ _ Habs) as (_ & Hsk' & Hd & Hb');
      [apply Hinv'|].
    exists w', σ'. split_and!; try done. by apply Hb'.
  - intros Hnul. split.
    + apply c_str_no_NUL. intros Hin. apply Hnul.
      by apply (subseteq_take (length (buf w) - 1) full).
    + unfold cut, full. rewrite length_take, length_app, Hp. lia.
Qed.

(** The scan at a terminator that stands at the very start of what is
    left of the valid span: the terminator is overwritten by NUL, the
    collector is handed the string at that place, which is empty, and
    the scan goes on behind it. *)
Lemma scan_lines_empty_line (fuel : nat) w (line ret : nat) :
  (line < ret)%nat → (ret ≤ length (buf w))%nat →
  buf w !! line = Some LF → skip w = DO_NOT_SKIP →
  scan_lines (S fuel) w line ret
  = scan_lines fuel
      (set_data (set_buf w (<[line := NUL]> (buf w)))
         (process (func w) (Some []) (data w)))
      (line + 1) ret.
Proof.
  intros Hlt Hret Hlf Hsk. simpl.
  assert (Hdrop : drop line (buf w) = LF :: drop (S line) (buf w))
    by (by apply drop_S).
  rewrite Hdrop.
  destruct (ret - line)%nat as [|m] eqn:Hm; [lia|]. simpl.
  rewrite Nat.add_0_r. rewrite Hsk. unfold dispatch. simpl.
  rewrite drop_insert_ge, Nat.sub_diag by lia. rewrite Hdrop. simpl.
  done.
Qed.

(** C10.  Empty lines are delivered like any other.  Let the bytes
    [pre] leave the reader at the start of a line and not skipping, the
    collector holding [d]: no byte at all on a fresh watch, or any bytes
    that end in a terminator ([run_bytes_line_start]).  When a
    terminator comes next, the calls return and the collector has been
    handed the empty string on top of [d], once, before anything that
    follows: the reader ends where the bytes behind that terminator take
    it from the collector [process (Some []) d].  When those bytes hold
    no terminator and fit the buffer, the collector ends as exactly that,
    and they wait in the buffer. *)
Theorem empty_line_dispatched w σ (s : list read_event) (n : nat)
    (pre rest : list ascii) (d : D) :
  fd w ≠ -1 → fds σ !! fd w = Some s → reader_inv w →
  run_bytes (length (buf w)) (func w) (abs w) pre = ([], DO_NOT_SKIP, d) →
  script_bytes s = pre ++ LF :: rest →
  (length s ≤ n)%nat →
  ∃ w' σ',
    read_calls n w σ = Some (w', σ') ∧
    abs w' = run_bytes (length (buf w)) (func w)
               ([], DO_NOT_SKIP, process (func w) (Some []) d) rest ∧
    (LF ∉ rest → (length rest < length (buf w))%nat →
     data w' = process (func w) (Some []) d ∧
     take (buffered w') (buf w') = rest ∧ skip w' = DO_NOT_SKIP).
Proof.
  intros Hfd Hs Hinv Hpre Hbytes Hn.
  destruct (read_calls_refines n w σ s Hfd Hs Hinv Hn)
    as (w' & σ' & Hrun & _ & _ & Habs & _).
  assert (Hend : abs w'
                 = run_bytes (length (buf w)) (func w)
                     ([], DO_NOT_SKIP, process (func w) (Some []) d) rest).
  { rewrite Habs, Hbytes, run_bytes_app, Hpre.
    change (LF :: rest) with ([LF] ++ rest). rewrite run_bytes_app.
    by f_equal. }
  exists w', σ'. split_and!; [done | done |].
  intros Hno Hfit. rewrite run_bytes_collect in Hend by (done || simpl; lia).
  unfold abs in Hend. by injection Hend as -> -> ->.
Qed.

(** C4, as the code has it.  A failing [read], whatever its [errno],
    ends the loop like a [read] that returns 0: [read_log_file] returns
    [ND_SUCCESS], so no read error reaches the caller.  Nothing is lost
    and nothing is torn down: the bytes taken before the failure have
    gone through the reader as usual, the descriptor of the watch is the
    same and still open, and when the very first [read] fails the watch
    is left exactly as it was. *)
Theorem failed_read_returns_success w σ (s : list read_event) :
  fd w ≠ -1 → fds σ !! fd w = Some s → reader_inv w →
  (∃ w' σ', read_log_file w σ = Some (ND_SUCCESS, w', σ') ∧
            fd w' = fd w ∧ fds σ' !! fd w = Some (call_rest s) ∧
            abs w' = run_bytes (length (buf w)) (func w) (abs w)
                       (call_bytes s)) ∧
  (∀ e s', s = Fail e :: s' →
     ∃ σ', read_log_file w σ = Some (ND_SUCCESS, w, σ') ∧
           errno σ' = e ∧ fds σ' !! fd w = Some s').
Proof.
  intros Hfd Hs Hinv. split.
  - destruct (read_log_file_refines w σ s Hfd Hs Hinv)
      as (w' & σ' & Hcall & Hsame & _ & Habs & Hfds & _).
    exists w', σ'. split_and!; try done; [apply Hsame|].
    by rewrite Hfds, lookup_insert_eq.
  - intros e s' ->. unfold read_log_file, read_fuel.
    rewrite decide_False by done. rewrite Hs. simpl.
    unfold sys_read. rewrite Hs. simpl.
    eexists. split_and!; try done. simpl. by rewrite lookup_insert_eq.
Qed.
End ReaderClaims.

Lemma buffered_below_capacity_witness :
  ∃ e w' σ',
    read_log_file (demo_watch 8)
      (demo_world [Avail (lit "abcdefghij"); Fail EAGAIN])
    = Some (e, w', σ') ∧
    length (buf w') = length (buf (demo_watch 8)) ∧
    (0 ≤ buffered w' < length (buf w'))%nat.
Proof.
  apply (buffered_below_capacity (demo_watch 8)
           (demo_world [Avail (lit "abcdefghij"); Fail EAGAIN])).
  simpl. lia.
Defined.


Lemma fragmentation_independence_witness :
  ∃ w' σ',
    read_calls 2 (demo_watch 8)
      (demo_world [Avail (lit "abc"); Avail (lit "def" ++ [LF])])
    = Some (w', σ') ∧
    data w' = [Some (lit "abcdef")] ∧
    take (buffered w') (buf w') = [] ∧ skip w' = DO_NOT_SKIP.
Proof.
  destruct (fragmentation_independence (demo_watch 8)
              (demo_world [Avail (lit "abc"); Avail (lit "def" ++ [LF])])
              [Avail (lit "abc"); Avail (lit "def" ++ [LF])] 2)
    as (w' & σ' & Hrun & Hdata & _ & Hrest & Hskip).
  - simpl. lia.
  - reflexivity.
  - reflexivity.
  - reflexivity.
  - repeat constructor.
  - simpl. lia.
  - simpl. lia.
  - exists w', σ'. split; [exact Hrun|]. split; [exact Hdata|].
    split; [exact Hrest | exact Hskip].
Defined.

Lemma overlong_line_truncated_once_witness :
  ∃ w' σ',
    read_calls 3 (demo_watch 4)
      (demo_world [Avail (lit "abcdefg"); Fail EAGAIN;
                   Avail (lit "tail" ++ [LF])])
    = Some (w', σ') ∧
    data w' = [Some (lit "abc")] ∧
    skip w' = DO_NOT_SKIP ∧ buffered w' = 0%nat.
Proof.
  destruct (overlong_line_truncated_once (demo_watch 4)
              (demo_world [Avail (lit "abcdefg"); Fail EAGAIN;
                           Avail (lit "tail" ++ [LF])])
              [Avail (lit "abcdefg"); Fail EAGAIN; Avail (lit "tail" ++ [LF])]
              3 (lit "abcd") (lit "efgtail"))
    as (_ & Hskip & _).
  - simpl. lia.
  - reflexivity.
  - split; [simpl; lia | apply not_elem_of_nil].
  - reflexivity.
  - apply (bool_decide_unpack _). vm_compute. exact I.
  - discriminate.
  - simpl. lia.
  - apply (bool_decide_unpack _). vm_compute. exact I.
  - simpl. lia.
  - apply Hskip. reflexivity.
Defined.

Lemma empty_line_dispatched_witness :
  ∃ w' σ',
    read_calls 2 (demo_watch 8)
      (demo_world [Avail (lit "a" ++ [LF]); Avail (LF :: lit "b")])
    = Some (w', σ') ∧
    data w' = [Some (lit "a"); Some []] ∧
    take (buffered w') (buf w') = lit "b" ∧ skip w' = DO_NOT_SKIP.
Proof.
  destruct (empty_line_dispatched (demo_watch 8)
              (demo_world [Avail (lit "a" ++ [LF]); Avail (LF :: lit "b")])
              [Avail (lit "a" ++ [LF]); Avail (LF :: lit "b")] 2
              (lit "a" ++ [LF]) (lit "b") [Some (lit "a")])
    as (w' & σ' & Hrun & _ & Hend).
  - simpl. lia.
  - reflexivity.
  - split; [simpl; lia | apply not_elem_of_nil].
  - reflexivity.
  - reflexivity.
  - simpl. lia.
  - exists w', σ'. split; [exact Hrun|]. apply Hend.
    + apply (bool_decide_unpack _). vm_compute. exact I.
    + simpl. lia.
Defined.

Lemma failed_read_returns_success_witness :
  ∃ σ', read_log_file (demo_watch 8) (demo_world [Fail EIO; Avail (lit "x")])
        = Some (ND_SUCCESS, demo_watch 8, σ') ∧
        errno σ' = EIO ∧ fds σ' !! 3 = Some [Avail (lit "x")].
Proof.
  destruct (failed_read_returns_success (demo_watch 8)
              (demo_world [Fail EIO; Avail (lit "x")])
              [Fail EIO; Avail (lit "x")])
    as [_ Hfirst].
  - simpl. lia.
  - reflexivity.
  - split; [simpl; lia | apply not_elem_of_nil].
  - apply (Hfirst EIO [Avail (lit "x")]). reflexivity.
Defined.

(** C4 as stated does not hold: a read that fails with [EIO], which is
    not [EAGAIN], is answered with [ND_SUCCESS], not with an error. *)
Lemma read_error_not_signalled :
  EIO ≠ EAGAIN ∧
  ∃ σ', read_log_file (demo_watch 8) (demo_world [Fail EIO])
        = Some (ND_SUCCESS, demo_watch 8, σ') ∧ errno σ' = EIO.
Proof.
  split; [discriminate|]. eexists. split; reflexivity.
Qed.

(** ** The collector of [ratelimitspp.c] *)

Lemma starts_with_app n post : starts_with (n ++ post) n = true.
Proof.
  induction n as [|y n IH]; simpl; [by destruct post|].
  by rewrite bool_decide_eq_true_2, IH.
Qed.

Lemma starts_with_prefix h n :
  starts_with h n = true → ∃ post, h = n ++ post.
Proof.
  revert h. induction n as [|y n IH]; intros h; simpl.
  - intros _. by exists h.
  - destruct h as [|x h]; [done|]. intros H.
    apply andb_true_iff in H as [Hx Hn].
    apply bool_decide_eq_true_1 in Hx as ->.
    destruct (IH h Hn) as [post ->]. by exists post.
Qed.

Lemma strstr_unfold h n :
  strstr h n
  = if starts_with h n then Some h
    else match h with
         | [] => None
         | _ :: h' => strstr h' n
         end.
Proof. by destruct h. Qed.

(** [strstr] finds an occurrence exactly when there is one. *)
Lemma strstr_Some h n t :
  strstr h n = Some t → ∃ pre post, h = pre ++ t ∧ t = n ++ post.
Proof.
  revert t. induction h as [|x h IH]; intros t; rewrite strstr_unfold;
    destruct (starts_with _ n) eqn:E.
  - intros [= <-]. destruct (starts_with_prefix _ _ E) as [post Hp].
    by exists [], post.
  - done.
  - intros [= <-]. destruct (starts_with_prefix _ _ E) as [post Hp].
    by exists [], post.
  - intros H. destruct (IH t H) as (pre & post & -> & ->).
    by exists (x :: pre), post.
Qed.

Lemma strstr_occurrence pre n post : strstr (pre ++ n ++ post) n ≠ None.
Proof.
  induction pre as [|x pre IH]; rewrite strstr_unfold.
  - simpl. by rewrite starts_with_app.
  - by destruct (starts_with _ n).
Qed.

Lemma strstr_None h n :
  strstr h n = None ↔ ¬ ∃ pre post, h = pre ++ n ++ post.
Proof.
  split.
  - intros H (pre & post & ->). by apply (strstr_occurrence pre n post).
  - intros H. destruct (strstr h n) as [t|] eqn:E; [|done].
    exfalso. apply H. destruct (strstr_Some _ _ _ E) as (pre & post & -> & ->).
    by exists pre, post.
Qed.

(** C9.  A line in which the marker [ratelimitspp:] does not occur
    leaves every counter of the collector as it was, and the call
    returns normally; so does the callback of the table, which hands
    back the block as it was and no fault. *)
Theorem unmatched_line_ignored (line : list ascii)
    (data : ratelimitspp_statistics) :
  (¬ ∃ pre post, line = pre ++ lit "ratelimitspp:" ++ post) →
  ratelimitspp_process line data = Some data ∧
  ∀ calloc_ok r,
    process (ratelimitspp calloc_ok r) (Some line) (Some data) = Some data.
Proof.
  intros H. apply strstr_None in H.
  assert (Hp : ratelimitspp_process line data = Some data).
  { unfold ratelimitspp_process. by rewrite H. }
  split; [done|]. intros calloc_ok r. simpl. by rewrite Hp.
Qed.

Lemma unmatched_line_ignored_witness :
  ratelimitspp_process (lit "status: local 0/10 remote 0/20")
    {| conn_timeout := 1; error := 2; ratelimited := 3 |}
  = Some {| conn_timeout := 1; error := 2; ratelimited := 3 |}.
Proof.
  apply (unmatched_line_ignored (lit "status: local 0/10 remote 0/20")
           {| conn_timeout := 1; error := 2; ratelimited := 3 |}).
  apply strstr_None. vm_compute. reflexivity.
Defined.

(** ** Rotation and creation of a watch *)


Section RotationClaims.
Context {D : Type}.
Implicit Types (item w : fs_watch D) (σ : world).


End RotationClaims.


(** ** The interval cycle and the exit code *)

Section MainClaims.
Context {D : Type}.
Implicit Types (w : fs_watch D) (σ : world) (st : plugin (D := D)).

Lemma scan_lines_id fuel : ∀ w line ret w',
  scan_lines fuel w line ret = Some w' → same_id w w'.
Proof.
  induction fuel as [|fuel IH]; intros w line ret w'; simpl; [done|].
  destruct (memchr _ LF) as [k|].
  - intros Hrec. apply IH in Hrec. unfold same_id in *.
    destruct (skip w); simpl in *; done.
  - repeat case_decide; intros [= <-]; unfold same_id;
      destruct (skip w); simpl; done.
Qed.

Lemma read_loop_id fuel : ∀ w σ w' σ',
  read_loop fuel w σ = Some (w', σ') → same_id w w'.
Proof.
  induction fuel as [|fuel IH]; intros w σ w' σ'; simpl; [done|].
  destruct (sys_read σ (fd w) _) as [[ret bs] σ1].
  case_decide.
  - unfold absorb. destruct (scan_lines _ _ _ _) as [w1|] eqn:E; simpl; [|done].
    intros Hrec. apply IH in Hrec. apply scan_lines_id in E.
    unfold same_id in *. simpl in *. destruct Hrec as (?&?&?&?&?&?&?).
    destruct E as (?&?&?&?&?&?&?). repeat split; congruence.
  - intros [= <- <-]. by repeat split.
Qed.

Lemma read_log_file_id w σ e w' σ' :
  read_log_file w σ = Some (e, w', σ') → same_id w w'.
Proof.
  unfold read_log_file. case_decide.
  - intros [= <- <- <-]. by repeat split.
  - destruct (read_loop _ w σ) as [[w1 σ1]|] eqn:E; simpl; [|done].
    intros [= <- <- <-]. by eapply read_loop_id.
Qed.

(** The inner loop over the aggregators leaves their number in [i]. *)
Lemma aggregate_loop_index rest : ∀ i w aggs i',
  aggregate_loop i rest w = Ok (aggs, i') →
  i' = (i + length rest)%nat ∧ length aggs = length rest.
Proof.
  induction rest as [|a rest IH]; intros i w aggs i'; simpl.
  - intros [= <- <-]. simpl. lia.
  - destruct (decide (agg_type a = type w)).
    + destruct (aggregate (agg_func a)); simpl; [|done].
      destruct (aggregate_loop (S i) rest w) as [[r i1]|] eqn:E; simpl; [|done].
      intros [= <- <-]. apply IH in E. simpl. lia.
    + simpl.
      destruct (aggregate_loop (S i) rest w) as [[r i1]|] eqn:E; simpl; [|done].
      intros [= <- <-]. apply IH in E. simpl. lia.
Qed.

(** Aggregators of another kind than the watch are left alone. *)
Lemma aggregate_loop_other rest : ∀ i w,
  Forall (λ a, agg_type a ≠ type w) rest →
  aggregate_loop i rest w = Ok (rest, (i + length rest)%nat).
Proof.
  induction rest as [|a rest IH]; intros i w Hall; simpl.
  - by rewrite Nat.add_0_r.
  - inversion_clear Hall as [|? ? Ha Hrest].
    rewrite decide_False by done. simpl. rewrite IH by done. simpl.
    do 2 f_equal. lia.
Qed.

(** Once the loop over the watches stands at the index that follows the
    number of aggregators, on a queue watch whose [print] succeeds, it
    comes back to that same index after every turn and never ends. *)
Lemma watch_loop_spins fuel : ∀ st w,
  watchers st !! S (length (aggregators st)) = Some w →
  type w = WATCH_QUEUE →
  (∀ n d t, print (func w) n d t = 0) →
  Forall (λ a, agg_type a ≠ WATCH_QUEUE) (aggregators st) →
  watch_loop fuel (S (length (aggregators st))) st = Stop Spinning.
Proof.
  induction fuel as [|fuel IH]; intros st w Hw Hty Hprint Haggs; [done|].
  simpl. rewrite Hw, Hty. simpl.
  rewrite aggregate_loop_other by (simpl; by rewrite Hty). simpl.
  rewrite Hprint. rewrite decide_False by (intros Hne; by apply Hne).
  match goal with |- watch_loop _ _ ?st1 = _ => set (st' := st1) end.
  replace (length (aggregators st) + 1)%nat
    with (S (length (aggregators st'))) by (simpl; lia).
  eapply IH; simpl; [| | |done].
  - apply list_lookup_insert_eq. by eapply lookup_lt_Some.
  - done.
  - done.
Qed.

(** One turn of the loop over the watches on a log watch whose [print]
    succeeds. *)
Lemma watch_loop_turn fuel i st w e w1 σ1 aggs i1 :
  watchers st !! i = Some w → type w = WATCH_LOG_FILE →
  read_log_file w (kernel st) = Some (e, w1, σ1) →
  aggregate_loop 0 (aggregators st) w1 = Ok (aggs, i1) →
  print (func w1) (dir_name w1) (run_postprocess (func w1) (data w1))
    (clock σ1 - time w1) = 0 →
  watch_loop (S fuel) i st
  = watch_loop fuel (i1 + 1)
      {| watchers :=
           <[i := set_data
                    (set_time
                       (set_data w1 (run_postprocess (func w1) (data w1)))
                       (clock σ1))
                    (clear (func w1) (run_postprocess (func w1) (data w1)))]>
             (watchers st);
         aggregators := aggs; kernel := σ1;
         out := out st ++ [WatchSnapshot (dir_name w1)
                             (run_postprocess (func w1) (data w1))
                             (clock σ1 - time w1)] |}.
Proof.
  intros Hw Hty Hread Hagg Hprint. simpl.
  rewrite Hw, Hty, Hread. simpl. rewrite Hagg. simpl. rewrite Hprint.
  by rewrite decide_False by (intros Hne; by apply Hne).
Qed.

(** Closes a branch of the case analysis of a cycle once the turn of the
    first watch is done; [Hname] says that its name is unchanged. *)
Local Ltac finish_cycle Hname :=
  case_decide; intros [= <- <-]; simpl; rewrite <- ?app_assoc, Hname;
  split; try done; by eexists _, _, _, _.

(** C2, as the code has it.  The loop over the watches and the loop
    over the aggregators inside it count with the same variable.  With
    two watches and one aggregator, a cycle that comes to its end has
    processed the first watch only: the second watch is exactly as it
    was before the cycle (not read, not printed, not reset), and the
    cycle has printed one snapshot of the first watch and one of the
    aggregator. *)
Theorem second_watch_skipped (fuel : nat) (w0 w1 : fs_watch D)
    (a : fs_watch_aggregator D) σ (o : list (emission D)) st' (run : bool) :
  interval_cycle fuel
    {| watchers := [w0; w1]; aggregators := [a]; kernel := σ; out := o |}
  = Ok (st', run) →
  watchers st' !! 1%nat = Some w1 ∧
  ∃ d0 t0 da ta,
    out st' = o ++ [WatchSnapshot (dir_name w0) d0 t0;
                    AggregatorSnapshot da ta].
Proof.
  unfold interval_cycle. destruct fuel as [|fuel]; [done|]. simpl.
  set (first := match type w0 with
                | WATCH_LOG_FILE => _ | WATCH_QUEUE => _ end).
  assert (Hfirst : ∀ w σ1, first = Ok (w, σ1) → dir_name w = dir_name w0).
  { unfold first. intros w σ1. destruct (type w0); simpl.
    - destruct (read_log_file w0 σ) as [[[e w'] σ']|] eqn:E; simpl; [|done].
      intros [= <- <-]. by apply read_log_file_id in E as (?&_).
    - by intros [= <- <-]. }
  destruct first as [[w σ1]|h]; simpl; [|done].
  specialize (Hfirst w σ1 eq_refl).
  destruct (decide (agg_type a = type w)) as [Ht|Ht]; simpl.
  - destruct (aggregate (agg_func a)) as [g|]; simpl; [|done].
    case_decide; simpl.
    + finish_cycle Hfirst.
    + destruct fuel as [|fuel]; simpl; [done|].
      finish_cycle Hfirst.
  - case_decide; simpl.
    + finish_cycle Hfirst.
    + destruct fuel as [|fuel]; simpl; [done|].
      finish_cycle Hfirst.
Qed.


(** Inside the loop, only a failing read of the notification
    descriptor calls [exit], and it does so with 1. *)
Lemma process_fs_event_item_stop (event : inotify_event) w σ h :
  process_fs_event_item event w σ = Stop h → no_exit h.
Proof.
  unfold process_fs_event_item. repeat case_decide; try done.
  destruct (file_name w); [|by intros [= <-]].
  case_decide; [|done].
  destruct (read_log_file w σ) as [[[e w1] σ1]|]; simpl; [|by intros [= <-]].
  unfold reopen_log_file.
  destruct (dir_name w1), (file_name w1); try by intros [= <-].
  by destruct (sys_open _ _).
Qed.

Lemma process_fs_event_stop (event : inotify_event)
    (ws : list (fs_watch D)) : ∀ σ h,
  process_fs_event event ws σ = Stop h → no_exit h.
Proof.
  induction ws as [|w ws IH]; intros σ h; simpl; [done|].
  destruct (process_fs_event_item event w σ) as [[w1 σ1]|h1] eqn:E; simpl.
  - destruct (process_fs_event event ws σ1) as [[ws1 σ2]|h2] eqn:E2; simpl;
      [done|]. intros [= <-]. by eapply IH.
  - intros [= <-]. by eapply process_fs_event_item_stop.
Qed.

Lemma process_fs_events_stop (events : list inotify_event) :
  ∀ (ws : list (fs_watch D)) σ h,
    process_fs_events events ws σ = Stop h → no_exit h.
Proof.
  induction events as [|event events IH]; intros ws σ h; simpl; [done|].
  destruct (process_fs_event event ws σ) as [[ws1 σ1]|h1] eqn:E; simpl.
  - apply IH.
  - intros [= <-]. by eapply process_fs_event_stop.
Qed.

Lemma process_fs_event_queue_exit (q : fs_queue) (ws : list (fs_watch D)) σ c :
  process_fs_event_queue q ws σ = Stop (Exited c) →
  c = 1 ∧ last_len q = -1 ∧ last_errno q ≠ EAGAIN.
Proof.
  unfold process_fs_event_queue.
  destruct (process_fs_events _ ws σ) as [[ws1 σ1]|h1] eqn:E; simpl.
  - case_decide; [|done]. by intros [= <-].
  - intros [= ->]. by apply process_fs_events_stop in E.
Qed.

Lemma aggregate_loop_stop rest : ∀ i w h,
  aggregate_loop i rest w = Stop h → no_exit h.
Proof.
  induction rest as [|a rest IH]; intros i w h; simpl; [done|].
  destruct (decide (agg_type a = type w)).
  - destruct (aggregate (agg_func a)); simpl; [|by intros [= <-]].
    destruct (aggregate_loop (S i) rest w) as [[r i1]|h1] eqn:E; simpl; [done|].
    intros [= <-]. by eapply IH.
  - simpl.
    destruct (aggregate_loop (S i) rest w) as [[r i1]|h1] eqn:E; simpl; [done|].
    intros [= <-]. by eapply IH.
Qed.

Lemma watch_loop_stop fuel : ∀ i st h,
  watch_loop fuel i st = Stop h → no_exit h.
Proof.
  induction fuel as [|fuel IH]; intros i st h; simpl; [by intros [= <-]|].
  destruct (watchers st !! i) as [w|]; [|done].
  destruct (type w); simpl.
  - destruct (read_log_file w (kernel st)) as [[[e w1] σ1]|]; simpl;
      [|by intros [= <-]].
    destruct (aggregate_loop 0 (aggregators st) w1) as [[aggs i1]|h1] eqn:E;
      simpl; [|intros [= <-]; by eapply aggregate_loop_stop].
    case_decide; [done|]. apply IH.
  - destruct (aggregate_loop 0 (aggregators st) _) as [[aggs i1]|h1] eqn:E;
      simpl; [|intros [= <-]; by eapply aggregate_loop_stop].
    case_decide; [done|]. apply IH.
Qed.

Lemma interval_cycle_stop fuel st h :
  interval_cycle fuel st = Stop h → no_exit h.
Proof.
  unfold interval_cycle.
  destruct (watch_loop fuel 0 st) as [[st1 run1]|h1] eqn:E; simpl.
  - by destruct (aggregator_loop _ _ _ _) as [[aggs o] run2].
  - intros [= <-]. by eapply watch_loop_stop.
Qed.

Lemma event_loop_exit fuel polls : ∀ st c,
  event_loop fuel st polls = Stop (Exited c) → c = 1.
Proof.
  induction polls as [|[| |signal fs_event timer] polls IH]; intros st c;
    simpl; [done | apply IH | apply IH |].
  destruct signal; [done|].
  destruct fs_event as [q|]; simpl.
  - destruct (process_fs_event_queue q (watchers st) (kernel st))
      as [[ws σ]|h1] eqn:E; simpl.
    + destruct timer; [|apply IH].
      destruct (interval_cycle fuel _) as [[st2 run]|h2] eqn:E2; simpl.
      * destruct run; [apply IH|done].
      * intros [= ->]. by apply interval_cycle_stop in E2.
    + intros [= ->]. by apply process_fs_event_queue_exit in E as [? _].
  - destruct timer; [|apply IH].
    destruct (interval_cycle fuel st) as [[st2 run]|h2] eqn:E2; simpl.
    + destruct run; [apply IH|done].
    + intros [= ->]. by apply interval_cycle_stop in E2.
Qed.

Section Program.
Variable buf_size : nat.
Variables send_func smtp_func queue_func ratelimitspp_func : stat_func D.

Local Abbreviation setup' :=
  (setup buf_size send_func smtp_func queue_func ratelimitspp_func).
Local Abbreviation main' :=
  (main buf_size send_func smtp_func queue_func ratelimitspp_func).

Lemma setup_stop (env : environment) h :
  setup' env = Stop h →
  h = Exited 1 ∧
  (chdir_ok env = false ∨ inotify_init_ok env = false ∨
   opendir_ok env = false ∨
   (append_queue_watcher buf_size queue_func
      (detect_log_dirs buf_size send_func smtp_func (add_watch_result env)
         (entries env) [] (kernel0 env)).1).2 = []).
Proof.
  unfold setup.
  destruct (chdir_ok env); simpl; [|intros [= <-]; auto].
  destruct (inotify_init_ok env); simpl; [|intros [= <-]; auto].
  destruct (opendir_ok env); simpl; [|intros [= <-]; auto].
  destruct (detect_log_dirs _ _ _ _ _ _ _) as [v1 σ1]. simpl.
  destruct (append_queue_watcher _ _ v1) as [e v2]. simpl.
  destruct v2; [intros [= <-]; auto|].
  by destruct (append_ratelimit_aggregator _ _).
Qed.

(** C6, as the code has it.  [main] has one way out of its loop, the
    clearing of [run], and returns 0 behind it.  So the exit code is 0
    when the termination signal ends the loop, and it is 0 as well when
    a failing [print] ends it; it is 1 when the start fails for good
    ([chdir], [inotify_init1], [opendir], an empty registry) or when
    reading the notification descriptor fails.  There is no other exit
    code. *)
Theorem exit_codes :
  (∀ fuel env polls c,
     main' fuel env polls = Exited c →
     (c = 0 ∧ ∃ st0 st, setup' env = Ok st0 ∧
                        event_loop fuel st0 polls = Ok st) ∨
     (c = 1 ∧ (setup' env = Stop (Exited 1) ∨
               ∃ st0, setup' env = Ok st0 ∧
                      event_loop fuel st0 polls = Stop (Exited 1)))) ∧
  (∀ env h, setup' env = Stop h → h = Exited 1) ∧
  (∀ fuel st q timer polls,
     event_loop fuel st (PollReady true q timer :: polls) = Ok st) ∧
  (∀ fuel st st' polls,
     interval_cycle fuel st = Ok (st', false) →
     event_loop fuel st (PollReady false None true :: polls) = Ok st') ∧
  (∀ fuel st st1,
     watch_loop fuel 0 st = Ok (st1, false) →
     ∃ st', interval_cycle fuel st = Ok (st', false)).
Proof.
  split_and!.
  - intros fuel env polls c. unfold main.
    destruct (setup' env) as [st0|h] eqn:Es; simpl.
    + destruct (event_loop fuel st0 polls) as [st|h] eqn:El; simpl.
      * intros [= <-]. left. split; [done|]. by exists st0, st.
      * intros ->. right. apply event_loop_exit in El as El'. subst c.
        split; [done|]. right. by exists st0.
    + intros ->. right. apply setup_stop in Es as Es'.
      destruct Es' as [[= ->] _]. split; [done|]. by left.
  - intros env h Hs. by apply setup_stop in Hs as [-> _].
  - done.
  - intros fuel st st' polls Hc. simpl. by rewrite Hc.
  - intros fuel st st1 Hw. unfold interval_cycle. rewrite Hw. simpl.
    assert (Hfalse : ∀ rest σ o,
      (aggregator_loop (D := D) rest σ o false).2 = false).
    { induction rest as [|a rest IH]; intros σ o; simpl; [done|].
      case_decide; [done|].
      specialize (IH σ (o ++ [AggregatorSnapshot
        (run_postprocess (agg_func a) (agg_data a)) (clock σ - agg_time a)])).
      by destruct (aggregator_loop rest σ _ false) as [[r o2] run']. }
    specialize (Hfalse (aggregators st1) (kernel st1) (out st1)).
    destruct (aggregator_loop _ _ _ false) as [[r o2] run']. simpl in *.
    subst run'. by eexists.
Qed.

End Program.

End MainClaims.

Lemma second_watch_skipped_witness :
  ∃ st',
    interval_cycle 5
      (two_log_watches (with_aggregate (ratelimitspp true 0) sum_statistics))
    = Ok (st', true) ∧
    watchers st' !! 1%nat = Some smtp_watch ∧
    ∃ d0 t0 da ta,
      out st' = [] ++ [WatchSnapshot (Some "send"%string) d0 t0;
                       AggregatorSnapshot da ta].
Proof.
  assert (Hrun : ∃ st',
    interval_cycle 5
      (two_log_watches (with_aggregate (ratelimitspp true 0) sum_statistics))
    = Ok (st', true)) by (eexists; reflexivity).
  destruct Hrun as [st' Hrun]. exists st'. split; [exact Hrun|].
  apply (second_watch_skipped 5 send_watch smtp_watch
           (log_aggregator (with_aggregate (ratelimitspp true 0) sum_statistics))
           quiet_kernel [] st' true).
  exact Hrun.
Defined.

(** With the three watches that [main] registers for a [send] and an
    [smtp] directory, and an aggregator that has an [aggregate], the
    cycle processes the first watch and then goes round on the queue
    watch for ever: no number of turns lets it end. *)
Lemma three_watches_never_end (fuel : nat) :
  interval_cycle fuel
    (three_watches (with_aggregate (ratelimitspp true 0) sum_statistics))
  = Stop Spinning.
Proof.
  unfold interval_cycle. destruct fuel as [|fuel]; [reflexivity|].
  erewrite (watch_loop_turn fuel 0 _ send_watch);
    [| reflexivity | reflexivity | reflexivity | reflexivity | reflexivity].
  match goal with
  | |- context [watch_loop fuel ?i ?st] =>
      change (watch_loop fuel i st)
        with (watch_loop fuel (S (length (aggregators st))) st);
      rewrite (watch_loop_spins fuel st queue_watch)
  end; [done | done | done | done |].
  repeat constructor. discriminate.
Qed.

(** C5 on the registry of its example.  With the callback table of the
    sources, whose [aggregate] is a null pointer, the cycle faults when
    the first watch is to be folded in.  With a table that folds counter
    by counter, the cycle ends, and the aggregator has been handed the 3
    of the first watch only: that is the snapshot it prints, and the
    second watch still holds its 5. *)
Theorem aggregator_misses_second_watch :
  interval_cycle 5 (two_log_watches (ratelimitspp true 0)) = Stop Faulted ∧
  ∃ st',
    interval_cycle 5
      (two_log_watches (with_aggregate (ratelimitspp true 0) sum_statistics))
    = Ok (st', true) ∧
    out st' = [WatchSnapshot (Some "send"%string) (counted 3) 10;
               AggregatorSnapshot (counted 3) 10] ∧
    data <$> watchers st' = [counted 0; counted 5] ∧
    counted 3 ≠ counted 8.
Proof.
  split; [reflexivity|]. eexists. split; [reflexivity|].
  split; [reflexivity|]. split; [reflexivity|]. discriminate.
Qed.

Lemma exit_codes_witness :
  (0 = 0 ∧
   ∃ st0 st,
     setup 8 (printing 0) (printing 0) (printing (-1)) (printing 0)
       bare_environment = Ok st0 ∧
     event_loop 5 st0 [PollReady false None true] = Ok st) ∨
  (0 = 1 ∧
   (setup 8 (printing 0) (printing 0) (printing (-1)) (printing 0)
      bare_environment = Stop (Exited 1) ∨
    ∃ st0,
      setup 8 (printing 0) (printing 0) (printing (-1)) (printing 0)
        bare_environment = Ok st0 ∧
      event_loop 5 st0 [PollReady false None true] = Stop (Exited 1))).
Proof.
  apply (proj1 (exit_codes 8 (printing 0) (printing 0) (printing (-1))
                  (printing 0))
           5%nat bare_environment [PollReady false None true] 0).
  reflexivity.
Defined.

(** C6 as stated does not hold: here the queue watch is the only watch
    and its [print] returns -1, the [EOF] of a failing [fflush]; the loop
    ends on that failure of the sink and [main] returns 0, not 1. *)
Lemma sink_failure_exits_with_0 :
  print (printing (-1)) None 1 0 ≠ 0 ∧
  main 8 (printing 0) (printing 0) (printing (-1)) (printing 0) 5
    bare_environment [PollReady false None true]
  = Exited 0 ∧
  Exited 0 ≠ Exited 1.
Proof.
  split; [discriminate|]. split; [reflexivity | discriminate].
Qed.

(** * Part III: further properties of the code *)

(** ** More on [read_log_file] *)

Lemma c_str_sub l x : x ∈ c_str l → x ∈ l.
Proof.
  induction l as [|y l IH]; simpl; [done|].
  destruct (decide (y = NUL)); [by intros ?%elem_of_nil|].
  rewrite !elem_of_cons. intros [->|H]; [by left | right; by apply IH].
Qed.

Lemma c_str_length l : (length (c_str l) ≤ length l)%nat.
Proof.
  induction l as [|y l IH]; simpl; [done|].
  destruct (decide (y = NUL)); simpl; lia.
Qed.

Lemma c_str_NUL_free l : NUL ∉ c_str l.
Proof.
  induction l as [|y l IH]; simpl; [apply not_elem_of_nil|].
  destruct (decide (y = NUL)); [apply not_elem_of_nil|].
  rewrite not_elem_of_cons. split; [congruence | done].
Qed.

(** What the automaton hands to the recording collector is short and
    clean. *)
Lemma run_bytes_recorder cap bs : ∀ p sk d,
  (length p < cap)%nat → LF ∉ p →
  ∃ new,
    (run_bytes cap recorder (p, sk, d) bs).2 = d ++ (Some <$> new) ∧
    Forall (λ l, (length l < cap)%nat ∧ (LF ∉ l) ∧ NUL ∉ l) new.
Proof.
  unfold run_bytes.
  induction bs as [|x bs IH]; intros p sk d Hlen Hlf; simpl.
  - exists []. by rewrite app_nil_r.
  - assert (Hdel : ∃ new0,
      deliver recorder sk d p = d ++ (Some <$> new0) ∧
      Forall (λ l, (length l < cap)%nat ∧ (LF ∉ l) ∧ NUL ∉ l) new0).
    { destruct sk; simpl.
      - exists [c_str p]. split; [done|]. repeat constructor.
        + pose proof (c_str_length p). lia.
        + intros Hin. by apply Hlf, c_str_sub.
        + apply c_str_NUL_free.
      - exists []. by rewrite app_nil_r. }
    destruct Hdel as (new0 & Hd0 & Hall0).
    assert (Hnil : (length (@nil ascii) < cap)%nat) by (simpl; lia).
    destruct (decide (x = LF)); [|destruct (decide (S (length p) = cap))].
    + destruct (IH [] DO_NOT_SKIP (deliver recorder sk d p) Hnil
                  (not_elem_of_nil _)) as (new & Hd & Hall).
      exists (new0 ++ new). rewrite Hd, Hd0, fmap_app, <- app_assoc.
      split; [done | by apply Forall_app].
    + destruct (IH [] SKIP_THE_REST (deliver recorder sk d p) Hnil
                  (not_elem_of_nil _)) as (new & Hd & Hall).
      exists (new0 ++ new). rewrite Hd, Hd0, fmap_app, <- app_assoc.
      split; [done | by apply Forall_app].
    + apply IH; [rewrite length_app; simpl; lia|].
      rewrite not_elem_of_app, not_elem_of_cons. split_and!; try done.
      apply not_elem_of_nil.
Qed.

Section ReaderExtras.
Context {D : Type}.
Implicit Types (w : fs_watch D) (σ : world).

(** X1.  What the reader makes of a descriptor depends on the bytes it
    delivers and on nothing else: not on how the bytes are cut into
    reads, not on reads that return 0 or fail in between, not on the
    number of calls, and not on the bytes that earlier lines have left
    behind in the buffer.  This holds for every stream, lines longer than
    the buffer included: what the collector has got, the unfinished line
    and the skip flag come out the same. *)
Theorem reader_depends_on_bytes_only (w1 w2 : fs_watch D) σ1 σ2
    (s1 s2 : list read_event) (n1 n2 : nat) :
  fd w1 ≠ -1 → fd w2 ≠ -1 →
  fds σ1 !! fd w1 = Some s1 → fds σ2 !! fd w2 = Some s2 →
  reader_inv w1 → reader_inv w2 →
  abs w1 = abs w2 → func w1 = func w2 →
  length (buf w1) = length (buf w2) →
  script_bytes s1 = script_bytes s2 →
  (length s1 ≤ n1)%nat → (length s2 ≤ n2)%nat →
  ∃ w1' σ1' w2' σ2',
    read_calls n1 w1 σ1 = Some (w1', σ1') ∧
    read_calls n2 w2 σ2 = Some (w2', σ2') ∧
    data w1' = data w2' ∧ skip w1' = skip w2' ∧
    take (buffered w1') (buf w1') = take (buffered w2') (buf w2').
Proof.
  intros Hfd1 Hfd2 Hs1 Hs2 Hinv1 Hinv2 Habs Hfunc Hlen Hbytes Hn1 Hn2.
  destruct (read_calls_refines n1 w1 σ1 s1 Hfd1 Hs1 Hinv1 Hn1)
    as (w1' & σ1' & Hrun1 & _ & _ & Habs1 & _).
  destruct (read_calls_refines n2 w2 σ2 s2 Hfd2 Hs2 Hinv2 Hn2)
    as (w2' & σ2' & Hrun2 & _ & _ & Habs2 & _).
  exists w1', σ1', w2', σ2'. split; [done|]. split; [done|].
  assert (Heq : abs w1' = abs w2').
  { by rewrite Habs1, Habs2, Habs, Hfunc, Hlen, Hbytes. }
  unfold abs in Heq. by injection Heq as -> -> ->.
Qed.

End ReaderExtras.

(** X2.  No string that reaches the collector is as long as the buffer,
    and none holds a line terminator or a NUL: whatever the descriptor
    delivers, the recording collector ends with its earlier entries
    followed by strings of fewer than [sizeof buf] bytes without such
    bytes. *)
Theorem dispatched_lines_are_bounded
    (w : fs_watch (list (option (list ascii)))) (σ : world)
    (s : list read_event) (n : nat) :
  func w = recorder → fd w ≠ -1 → fds σ !! fd w = Some s →
  reader_inv w → (length s ≤ n)%nat →
  ∃ w' σ' new,
    read_calls n w σ = Some (w', σ') ∧
    data w' = data w ++ (Some <$> new) ∧
    Forall (λ l, (length l < length (buf w))%nat ∧ (LF ∉ l) ∧ NUL ∉ l) new.
Proof.
  intros Hfunc Hfd Hs Hinv Hn.
  destruct (read_calls_refines n w σ s Hfd Hs Hinv Hn)
    as (w' & σ' & Hrun & _ & _ & Habs & _).
  destruct (run_bytes_recorder (length (buf w)) (script_bytes s)
              (take (buffered w) (buf w)) (skip w) (data w))
    as (new & Hd & Hall).
  { rewrite length_take. destruct Hinv. lia. }
  { apply Hinv. }
  exists w', σ', new. split; [done|]. split; [|done].
  rewrite Hfunc in Habs. unfold abs in Habs. rewrite <- Habs in Hd.
  exact Hd.
Qed.

Lemma reader_depends_on_bytes_only_witness :
  ∃ w1' σ1' w2' σ2',
    read_calls 1 (demo_watch 4) (demo_world [Avail (lit "abcdefgh")])
    = Some (w1', σ1') ∧
    read_calls 5
      (set_buf (demo_watch 4) (lit "zzzz"))
      (demo_world [Avail (lit "a"); Fail EAGAIN; Avail (lit "bcdef");
                   Avail []; Avail (lit "gh")])
    = Some (w2', σ2') ∧
    data w1' = data w2' ∧ skip w1' = skip w2' ∧
    take (buffered w1') (buf w1') = take (buffered w2') (buf w2').
Proof.
  apply (reader_depends_on_bytes_only
           (demo_watch 4) (set_buf (demo_watch 4) (lit "zzzz"))
           (demo_world [Avail (lit "abcdefgh")])
           (demo_world [Avail (lit "a"); Fail EAGAIN; Avail (lit "bcdef");
                        Avail []; Avail (lit "gh")])
           [Avail (lit "abcdefgh")]
           [Avail (lit "a"); Fail EAGAIN; Avail (lit "bcdef"); Avail [];
            Avail (lit "gh")] 1 5).
  - simpl. lia.
  - simpl. lia.
  - reflexivity.
  - reflexivity.
  - split; [simpl; lia | apply not_elem_of_nil].
  - split; [simpl; lia | apply not_elem_of_nil].
  - reflexivity.
  - reflexivity.
  - reflexivity.
  - reflexivity.
  - simpl. lia.
  - simpl. lia.
Defined.

Lemma dispatched_lines_are_bounded_witness :
  ∃ w' σ' new,
    read_calls 1 (demo_watch 4)
      (demo_world [Avail (lit "abcdefgh" ++ [LF] ++ lit "xy" ++ [LF])])
    = Some (w', σ') ∧
    data w' = [] ++ (Some <$> new) ∧
    Forall (λ l, (length l < 4)%nat ∧ (LF ∉ l) ∧ NUL ∉ l) new.
Proof.
  apply (dispatched_lines_are_bounded (demo_watch 4)
           (demo_world [Avail (lit "abcdefgh" ++ [LF] ++ lit "xy" ++ [LF])])
           [Avail (lit "abcdefgh" ++ [LF] ++ lit "xy" ++ [LF])] 1).
  - reflexivity.
  - simpl. lia.
  - reflexivity.
  - split; [simpl; lia | apply not_elem_of_nil].
  - simpl. lia.
Defined.

(** ** More on rotation and on the creation of watches *)

(** [open] never hands out a descriptor that is in use. *)
Lemma lowest_free_fresh (t : gmap Z (list read_event)) :
  t !! lowest_free t = None.
Proof.
  unfold lowest_free.
  destruct (list_find (λ n, t !! Z.of_nat n = None) (seq 0 (S (size t))))
    as [[i n]|] eqn:E; simpl.
  - apply list_find_Some in E as (Hi & Hn & _).
    apply lookup_seq in Hi as [-> _]. exact Hn.
  - exfalso. apply list_find_None in E.
    set (X := list_to_set (Z.of_nat <$> seq 0 (S (size t))) : gset Z).
    assert (Hsub : X ⊆ dom t).
    { intros k Hk. apply elem_of_list_to_set in Hk.
      apply list_elem_of_fmap in Hk as (n & -> & Hn).
      rewrite Forall_forall in E. apply elem_of_dom.
      destruct (t !! Z.of_nat n) eqn:Ht; [done|].
      exfalso. apply (E n); [by apply list_elem_of_In | done]. }
    apply subseteq_size in Hsub. rewrite size_dom in Hsub.
    unfold X in Hsub. rewrite size_list_to_set in Hsub.
    + rewrite length_fmap, length_seq in Hsub. lia.
    + apply NoDup_fmap_2; [apply _ | apply NoDup_seq].
Qed.

Section RotationExtras.
Context {D : Type}.
Implicit Types (item w : fs_watch D) (σ : world).


(** X3.  A notification leaves alone every watch it is not meant for:
    one for another directory, one without a name, one that names
    another file than the watched one.  When this is so of all watches,
    neither the registry nor the kernel changes: nothing is read, closed
    or opened. *)
Theorem foreign_event_changes_nothing (event : inotify_event)
    (watchers : list (fs_watch D)) σ :
  Forall (λ item,
            wd event ≠ watch_dir item ∨ len event = 0%nat ∨
            ∃ f, file_name item = Some f ∧ name event ≠ f) watchers →
  process_fs_event event watchers σ = Ok (watchers, σ).
Proof.
  induction 1 as [|item rest Hitem _ IH]; simpl; [done|].
  assert (Hi : process_fs_event_item event item σ = Ok (item, σ)).
  { unfold process_fs_event_item.
    destruct Hitem as [Hwd|[Hlen|(f & Hf & Hne)]].
    - by rewrite decide_False.
    - case_decide; [|done]. by rewrite decide_False by lia.
    - repeat case_decide; try done. rewrite Hf. by rewrite decide_False. }
  rewrite Hi. simpl. by rewrite IH.
Qed.



(** X6.  When the callback table cannot allocate its data,
    [prepare_watcher] returns [ND_ALLOC] with the log file already
    opened: the kernel holds one descriptor more than before, at a number
    that was free, and no watch is handed back that could ever close
    it. *)
Theorem prepare_watcher_leaks_on_alloc_failure (buf_size : nat)
    (add_watch : string → Z) (dir : string) (func_ : stat_func D) σ
    (content : list ascii) :
  add_watch dir ≠ -1 → init func_ = None →
  files σ !! path_of dir "current" = Some content →
  ∃ σ' fd',
    prepare_watcher buf_size add_watch dir func_ σ = (ND_ALLOC, None, σ') ∧
    fds σ !! fd' = None ∧ fds σ' = <[fd' := []]> (fds σ) ∧
    size (fds σ') = S (size (fds σ)).
Proof.
  intros Hwd Hinit Hfile. unfold prepare_watcher.
  rewrite decide_False by done. unfold sys_open. rewrite Hfile.
  unfold sys_lseek_end. simpl. rewrite lookup_insert_eq, Hinit.
  pose proof (lowest_free_fresh (fds σ)) as Hfresh.
  eexists _, (lowest_free (fds σ)). split; [done|]. split; [done|].
  simpl. rewrite insert_insert_eq. split; [done|].
  by apply map_size_insert_None.
Qed.


End RotationExtras.

Lemma foreign_event_changes_nothing_witness :
  process_fs_event {| wd := 1; len := 32; name := "@4000000065f0a1b2" |}
    [send_watch; smtp_watch; queue_watch] quiet_kernel
  = Ok ([send_watch; smtp_watch; queue_watch], quiet_kernel).
Proof.
  apply (foreign_event_changes_nothing
           {| wd := 1; len := 32; name := "@4000000065f0a1b2" |}
           [send_watch; smtp_watch; queue_watch] quiet_kernel).
  constructor; [|constructor; [|constructor; [|constructor]]].
  - right. right. exists "current"%string. split; [reflexivity|discriminate].
  - left. simpl. lia.
  - left. simpl. lia.
Defined.



Lemma prepare_watcher_leaks_on_alloc_failure_witness :
  ∃ σ' fd',
    prepare_watcher 8 (λ _, 1) "send" (ratelimitspp false 0) send_kernel
    = (ND_ALLOC, None, σ') ∧
    fds send_kernel !! fd' = None ∧
    fds σ' = <[fd' := []]> (fds send_kernel) ∧
    size (fds σ') = S (size (fds send_kernel)).
Proof.
  apply (prepare_watcher_leaks_on_alloc_failure 8 (λ _, 1) "send"
           (ratelimitspp false 0) send_kernel (lit "old")).
  - simpl. lia.
  - reflexivity.
  - reflexivity.
Defined.


(** ** More on the interval cycle and the loop of [main] *)

Section CycleExtras.
Context {D : Type}.
Implicit Types (w : fs_watch D) (σ : world) (st : plugin (D := D)).

Lemma aggregator_loop_succeeds (rest : list (fs_watch_aggregator D)) σ :
  Forall (λ a, ∀ d t, print (agg_func a) None d t = 0) rest →
  ∀ (o : list (emission D)) (run : bool),
    aggregator_loop rest σ o run
    = (reset_aggregator σ <$> rest, o ++ (aggregator_snapshot σ <$> rest), run).
Proof.
  induction 1 as [|a rest Ha _ IH]; intros o run; simpl.
  - by rewrite app_nil_r.
  - rewrite Ha. rewrite decide_False by (intros Hne; by apply Hne).
    rewrite IH. by rewrite <- app_assoc.
Qed.

(** X8.  The loop over the aggregators does what it is meant to do.
    When every [print] succeeds, each aggregator is post-processed,
    printed exactly once, in the order of the registry, and reset.  When
    a [print] fails, the loop stops there with [run] cleared: the
    aggregators before it have been printed and reset, the failing one
    has been printed and keeps its data, the ones behind it are left
    untouched. *)
Theorem aggregators_printed_in_order σ (o : list (emission D)) (run : bool) :
  (∀ rest : list (fs_watch_aggregator D),
     Forall (λ a, ∀ d t, print (agg_func a) None d t = 0) rest →
     aggregator_loop rest σ o run
     = (reset_aggregator σ <$> rest,
        o ++ (aggregator_snapshot σ <$> rest), run)) ∧
  (∀ (pre post : list (fs_watch_aggregator D)) (a : fs_watch_aggregator D),
     Forall (λ a, ∀ d t, print (agg_func a) None d t = 0) pre →
     print (agg_func a) None (run_postprocess (agg_func a) (agg_data a))
       (clock σ - agg_time a) ≠ 0 →
     aggregator_loop (pre ++ a :: post) σ o run
     = ((reset_aggregator σ <$> pre) ++ stamped_aggregator σ a :: post,
        o ++ (aggregator_snapshot σ <$> pre) ++ [aggregator_snapshot σ a],
        false)).
Proof.
  split.
  - intros rest Hall. by apply aggregator_loop_succeeds.
  - intros pre post a Hall Hfail. revert o.
    induction Hall as [|a0 pre Ha0 _ IH]; intros o; simpl.
    + by rewrite decide_True.
    + rewrite Ha0. rewrite decide_False by (intros Hne; by apply Hne).
      rewrite IH. by rewrite <- !app_assoc.
Qed.

(** The loop stops at the first aggregator whose [print] fails. *)
Lemma aggregator_loop_stops (pre post : list (fs_watch_aggregator D))
    (a : fs_watch_aggregator D) σ :
  Forall (λ a, ∀ d t, print (agg_func a) None d t = 0) pre →
  print (agg_func a) None (run_postprocess (agg_func a) (agg_data a))
    (clock σ - agg_time a) ≠ 0 →
  ∀ (o : list (emission D)) (run : bool),
    aggregator_loop (pre ++ a :: post) σ o run
    = ((reset_aggregator σ <$> pre) ++ stamped_aggregator σ a :: post,
       o ++ (aggregator_snapshot σ <$> pre) ++ [aggregator_snapshot σ a],
       false).
Proof.
  intros Hall Hfail.
  induction Hall as [|a0 pre Ha0 _ IH]; intros o run; simpl.
  - by rewrite decide_True.
  - rewrite Ha0. rewrite decide_False by (intros Hne; by apply Hne).
    rewrite IH. by rewrite <- !app_assoc.
Qed.

(** The loop never sets [run] again, and only adds to the output. *)
Lemma aggregator_loop_run_cleared (rest : list (fs_watch_aggregator D)) σ :
  ∀ o : list (emission D),
    ∃ aggs' o', aggregator_loop rest σ o false = (aggs', o ++ o', false).
Proof.
  induction rest as [|a rest IH]; intros o; simpl.
  - exists [], []. by rewrite app_nil_r.
  - destruct (decide _) as [Hfail|Hok].
    + by eexists _, [_].
    + destruct (IH (o ++ [AggregatorSnapshot
                            (run_postprocess (agg_func a) (agg_data a))
                            (clock σ - agg_time a)]))
        as (aggs' & o' & ->).
      eexists _, (_ :: o'). by rewrite <- app_assoc.
Qed.

(** X9.  A failing [print] of the first watch, a log watch, ends the
    plugin but not the cycle it happens in.  Whatever the aggregators
    do, the cycle ends with [run] cleared, the watch keeps the counts it
    could not print (it is stamped but not reset), and the loop over the
    aggregators is still gone through, on the aggregators as the turn of
    that watch has left them.  When the [print] of every aggregator
    succeeds, every aggregator is printed and reset.  When the [print]
    of an aggregator fails as well, as it does when the sink is the same,
    the aggregators before it are printed and reset, that one is printed
    and keeps its data, and those behind it are neither printed nor
    reset. *)
Theorem failing_watch_print_ends_the_cycle (fuel : nat) st w
    (e : nd_err) w1 σ1 (aggs : list (fs_watch_aggregator D)) (i1 : nat) :
  watchers st !! 0%nat = Some w → type w = WATCH_LOG_FILE →
  read_log_file w (kernel st) = Some (e, w1, σ1) →
  aggregate_loop 0 (aggregators st) w1 = Ok (aggs, i1) →
  print (func w1) (dir_name w1) (run_postprocess (func w1) (data w1))
    (clock σ1 - time w1) ≠ 0 →
  let kept :=
    set_time (set_data w1 (run_postprocess (func w1) (data w1))) (clock σ1) in
  let o1 :=
    out st ++ [WatchSnapshot (dir_name w1)
                 (run_postprocess (func w1) (data w1))
                 (clock σ1 - time w1)] in
  (∃ aggs' o',
     interval_cycle (S fuel) st
     = Ok ({| watchers := <[0%nat := kept]> (watchers st);
              aggregators := aggs'; kernel := σ1; out := o1 ++ o' |},
           false)) ∧
  (Forall (λ a, ∀ d t, print (agg_func a) None d t = 0) aggs →
   interval_cycle (S fuel) st
   = Ok ({| watchers := <[0%nat := kept]> (watchers st);
            aggregators := reset_aggregator σ1 <$> aggs;
            kernel := σ1;
            out := o1 ++ (aggregator_snapshot σ1 <$> aggs) |}, false)) ∧
  (∀ (pre post : list (fs_watch_aggregator D)) (a : fs_watch_aggregator D),
     aggs = pre ++ a :: post →
     Forall (λ a, ∀ d t, print (agg_func a) None d t = 0) pre →
     print (agg_func a) None (run_postprocess (agg_func a) (agg_data a))
       (clock σ1 - agg_time a) ≠ 0 →
     interval_cycle (S fuel) st
     = Ok ({| watchers := <[0%nat := kept]> (watchers st);
              aggregators :=
                (reset_aggregator σ1 <$> pre) ++ stamped_aggregator σ1 a
                :: post;
              kernel := σ1;
              out := o1 ++ (aggregator_snapshot σ1 <$> pre)
                     ++ [aggregator_snapshot σ1 a] |}, false)).
Proof.
  intros Hw Hty Hread Hagg Hfail kept o1.
  assert (Hcycle : interval_cycle (S fuel) st
                   = let '(aggs', o, run2) :=
                       aggregator_loop aggs σ1 o1 false in
                     Ok ({| watchers := <[0%nat := kept]> (watchers st);
                            aggregators := aggs'; kernel := σ1; out := o |},
                         run2)).
  { unfold interval_cycle. simpl. rewrite Hw, Hty, Hread. simpl.
    rewrite Hagg. simpl. by rewrite decide_True. }
  split_and!.
  - destruct (aggregator_loop_run_cleared aggs σ1 o1) as (aggs' & o' & Hloop).
    exists aggs', o'. by rewrite Hcycle, Hloop.
  - intros Hall. by rewrite Hcycle, aggregator_loop_succeeds.
  - intros pre post a -> Hall Hfail'.
    by rewrite Hcycle, aggregator_loop_stops.
Qed.

(** X10.  With the queue watch as the only watch, which is the registry
    [main] builds in a directory without log directories, the cycle is
    sound: given two turns it ends, and it has ticked the watch,
    printed it and reset it exactly once, and then printed and reset
    every aggregator; no aggregator has been handed the data of the
    queue watch. *)
Theorem lone_queue_watch_cycle (fuel : nat) w
    (aggs : list (fs_watch_aggregator D)) σ (o : list (emission D)) :
  type w = WATCH_QUEUE →
  Forall (λ a, agg_type a ≠ WATCH_QUEUE) aggs →
  (∀ n d t, print (func w) n d t = 0) →
  Forall (λ a, ∀ d t, print (agg_func a) None d t = 0) aggs →
  let ticked := run_postprocess (func w) (process (func w) None (data w)) in
  interval_cycle (S (S fuel))
    {| watchers := [w]; aggregators := aggs; kernel := σ; out := o |}
  = Ok ({| watchers :=
             [set_data (set_time (set_data w ticked) (clock σ))
                (clear (func w) ticked)];
           aggregators := reset_aggregator σ <$> aggs;
           kernel := σ;
           out := (o ++ [WatchSnapshot (dir_name w) ticked (clock σ - time w)])
                  ++ (aggregator_snapshot σ <$> aggs) |}, true).
Proof.
  intros Hty Hkinds Hprint Hall ticked. unfold interval_cycle.
  cbn [watch_loop]. simpl. rewrite Hty. simpl.
  rewrite aggregate_loop_other by (simpl; by rewrite Hty). simpl.
  rewrite Hprint. rewrite decide_False by (intros Hne; by apply Hne).
  rewrite (proj2 (lookup_ge_None _ _)) by (simpl; lia). simpl.
  by rewrite aggregator_loop_succeeds.
Qed.

(** One turn of the loop over the watches never changes how many
    watches and aggregators there are, and touches no watch but its
    own. *)
Lemma watch_loop_untouched fuel : ∀ i st st' run,
  watch_loop fuel i st = Ok (st', run) →
  length (aggregators st') = length (aggregators st) ∧
  ∀ j, j ≠ i → j ≠ S (length (aggregators st)) →
       watchers st' !! j = watchers st !! j.
Proof.
  induction fuel as [|fuel IH]; intros i st st' run; simpl; [done|].
  destruct (watchers st !! i) as [w|]; [|by intros [= <- <-]].
  set (first := match type w with
                | WATCH_LOG_FILE => _ | WATCH_QUEUE => _ end).
  destruct first as [[w1 σ1]|h]; simpl; [|done].
  destruct (aggregate_loop 0 (aggregators st) w1) as [[aggs i1]|h] eqn:Ea;
    simpl; [|done].
  apply aggregate_loop_index in Ea as [-> Hlen]. simpl.
  case_decide.
  - intros [= <- <-]. simpl. split; [done|].
    intros j Hj _. by rewrite list_lookup_insert_ne.
  - intros Hrec. apply IH in Hrec as [Hl Hj]. simpl in *.
    split; [lia|]. intros j Hji HjA.
    rewrite Hj by lia. by rewrite list_lookup_insert_ne.
Qed.

(** X11.  Because the two nested loops share their counter, a cycle can
    only ever reach two watches: the first one, and the one whose index
    is the number of aggregators plus one.  Whatever the registry, a
    cycle that comes to its end has left every other watch exactly as it
    was. *)
Theorem cycle_reaches_two_watches_only (fuel : nat) st st' (run : bool)
    (j : nat) :
  interval_cycle fuel st = Ok (st', run) →
  j ≠ 0%nat → j ≠ S (length (aggregators st)) →
  watchers st' !! j = watchers st !! j.
Proof.
  unfold interval_cycle.
  destruct (watch_loop fuel 0 st) as [[st1 run1]|h] eqn:E; simpl; [|done].
  destruct (aggregator_loop _ _ _ _) as [[aggs o] run2].
  intros [= <- <-] Hj0 HjA. simpl.
  by apply (watch_loop_untouched _ _ _ _ _ E).
Qed.

(** The loop over the aggregators inside a turn returns whenever every
    aggregator of the kind of the watch has an [aggregate], and keeps
    the kinds. *)
Lemma aggregate_loop_total rest : ∀ i w,
  Forall (λ a, agg_type a = type w → is_Some (aggregate (agg_func a))) rest →
  ∃ aggs, aggregate_loop i rest w = Ok (aggs, (i + length rest)%nat) ∧
          agg_type <$> aggs = agg_type <$> rest.
Proof.
  induction rest as [|a rest IH]; intros i w Hall; simpl.
  - exists []. by rewrite Nat.add_0_r.
  - inversion_clear Hall as [|? ? Ha Hrest].
    destruct (IH (S i) w Hrest) as (aggs & Hrun & Hty).
    destruct (decide (agg_type a = type w)) as [Heq|Hne]; simpl.
    + destruct (Ha Heq) as [g Hg]. rewrite Hg. simpl. rewrite Hrun. simpl.
      eexists. split; [do 2 f_equal; lia|]. rewrite !fmap_cons.
      by rewrite Hty.
    + rewrite Hrun. simpl.
      eexists. split; [do 2 f_equal; lia|]. rewrite !fmap_cons.
      by rewrite Hty.
Qed.

Lemma Forall_by_kind (P : watch_type → Prop)
    (l1 : list (fs_watch_aggregator D)) :
  ∀ l2 : list (fs_watch_aggregator D),
  agg_type <$> l1 = agg_type <$> l2 →
  Forall (λ a, P (agg_type a)) l2 → Forall (λ a, P (agg_type a)) l1.
Proof.
  induction l1 as [|a l1 IH]; intros [|b l2]; try done.
  rewrite !fmap_cons. intros [= Ha Hl] Hall.
  inversion_clear Hall as [|? ? Hb Hl2].
  constructor; [by rewrite Ha | by eapply IH].
Qed.

Lemma read_log_file_total w σ :
  (buffered w < length (buf w))%nat →
  ∃ e w' σ', read_log_file w σ = Some (e, w', σ') ∧ same_watch w w'.
Proof.
  intros Hb. unfold read_log_file. destruct (decide (fd w = -1)).
  - exists ND_FILE, w, σ. split; [done | apply same_watch_refl].
  - destruct (read_loop_total (read_fuel σ (fd w)) w σ Hb)
      as (w' & σ' & Hrun & Hsame & _); [unfold read_fuel; lia|].
    exists ND_SUCCESS, w', σ'. by rewrite Hrun.
Qed.

(** X12.  The same shared counter makes a cycle go round for ever as
    soon as there is a queue watch at the index that follows the number
    of aggregators, which is where [main] puts it when it has registered
    as many log directories as there are aggregators plus one.  Once
    the first watch has had its turn, every turn is one on that queue
    watch, and as long as [print] succeeds no number of turns ends the
    cycle. *)
Theorem cycle_never_ends (fuel : nat) st (w0 wq : fs_watch D) :
  watchers st !! 0%nat = Some w0 →
  (buffered w0 < length (buf w0))%nat →
  Forall (λ a, agg_type a = type w0 → is_Some (aggregate (agg_func a)))
         (aggregators st) →
  (∀ n d t, print (func w0) n d t = 0) →
  watchers st !! S (length (aggregators st)) = Some wq →
  type wq = WATCH_QUEUE →
  (∀ n d t, print (func wq) n d t = 0) →
  Forall (λ a, agg_type a ≠ WATCH_QUEUE) (aggregators st) →
  interval_cycle fuel st = Stop Spinning.
Proof.
  intros Hw0 Hb Hagg Hp0 Hwq Hty Hpq Hnq.
  unfold interval_cycle. destruct fuel as [|fuel]; [done|]. simpl.
  rewrite Hw0.
  assert (Hfirst : ∃ w1 σ1,
    match type w0 with
    | WATCH_LOG_FILE =>
        of_option (read_log_file w0 (kernel st)) ≫= λ '(_, w', σ'), Ok (w', σ')
    | WATCH_QUEUE =>
        Ok (set_data w0 (process (func w0) None (data w0)), kernel st)
    end = Ok (w1, σ1) ∧ type w1 = type w0 ∧ func w1 = func w0).
  { destruct (type w0) eqn:Et.
    - destruct (read_log_file_total w0 (kernel st) Hb)
        as (e & w1 & σ1 & Hread & Hsame).
      exists w1, σ1. rewrite Hread. simpl. split; [done|].
      destruct Hsame as (_ & _ & Ht & _ & _ & Hf & _). by rewrite Ht, Hf.
    - by eexists _, _. }
  destruct Hfirst as (w1 & σ1 & -> & Ht1 & Hf1). simpl.
  destruct (aggregate_loop_total (aggregators st) 0 w1) as (aggs & -> & Htys).
  { by rewrite Ht1. }
  simpl. rewrite Hf1, Hp0.
  rewrite decide_False by (intros Hne; by apply Hne).
  assert (Hlen : length aggs = length (aggregators st)).
  { apply (f_equal length) in Htys. by rewrite !length_fmap in Htys. }
  match goal with |- context [watch_loop fuel ?i ?st1] =>
    replace i with (S (length (aggregators st1))) by (simpl; lia);
    rewrite (watch_loop_spins fuel st1 wq)
  end; simpl; try done.
  - rewrite Hlen. by rewrite list_lookup_insert_ne.
  - by apply (Forall_by_kind (λ t, t ≠ WATCH_QUEUE) aggs (aggregators st)).
Qed.

(** X13.  Results of [poll] that report an error, a time-out or no
    readable descriptor never end the loop of [main] and never change
    its state, however many of them come. *)
Theorem idle_polls_are_skipped (fuel : nat) st (idle polls : list poll_event) :
  Forall idle_poll idle →
  event_loop fuel st (idle ++ polls) = event_loop fuel st polls.
Proof.
  induction 1 as [|p idle Hp _ IH]; simpl; [done|].
  destruct p as [| |signal fs_event timer]; try done.
  destruct Hp as (-> & -> & ->). simpl. exact IH.
Qed.

End CycleExtras.

Section StartExtras.
Context {D : Type}.
Variable buf_size : nat.
Variables send_func smtp_func queue_func ratelimitspp_func : stat_func D.

Lemma prepare_watcher_some (add_watch : string → Z) (dir : string)
    (fn : stat_func D) σ e w σ1 :
  prepare_watcher buf_size add_watch dir fn σ = (e, Some w, σ1) →
  add_watch dir ≠ -1 ∧
  ∃ d fd_, init fn = Some d ∧
           w = zeroed_watch buf_size (Some dir) (Some "current"%string)
                 WATCH_LOG_FILE (add_watch dir) fd_ fn d.
Proof.
  unfold prepare_watcher. case_decide; [done|].
  destruct (sys_open σ _) as [fd_ σ0].
  destruct (init fn) as [d|]; [|done].
  intros [= <- <- <-]. split; [done|]. by exists d, fd_.
Qed.

Lemma detect_log_dirs_cons (add_watch : string → Z) (e : dirent)
    (es : list dirent) (v : list (fs_watch D)) σ :
  detect_log_dirs buf_size send_func smtp_func add_watch (e :: es) v σ
  = let try_with (fn : stat_func D) :=
      match prepare_watcher buf_size add_watch (d_name e) fn σ with
      | (ND_SUCCESS, Some watch, σ1) =>
          detect_log_dirs buf_size send_func smtp_func add_watch es
            (v ++ [watch]) σ1
      | (_, _, σ1) =>
          detect_log_dirs buf_size send_func smtp_func add_watch es v σ1
      end in
    if decide (head (lit (d_name e)) = Some "."%char)
    then detect_log_dirs buf_size send_func smtp_func add_watch es v σ
    else if decide (is_directory e = 1) then
      if strstr (lit (d_name e)) (lit "send") is Some _ then try_with send_func
      else if strstr (lit (d_name e)) (lit "smtp") is Some _
           then try_with smtp_func
           else detect_log_dirs buf_size send_func smtp_func add_watch es v σ
    else detect_log_dirs buf_size send_func smtp_func add_watch es v σ.
Proof. reflexivity. Qed.

(** X14.  What [detect_log_dirs] registers.  It only ever adds to the
    registry, and every watch it adds is a fresh log watch on the file
    [current] of a directory entry that is a directory, is not hidden,
    and carries [send] or [smtp] in its name: with the table for [send]
    when [send] occurs in the name, whatever else does, and with the
    table for [smtp] otherwise.  The subscription of such a watch has
    succeeded and its data has been allocated. *)
Theorem detected_watches_are_log_dirs (add_watch : string → Z)
    (es : list dirent) : ∀ (v : list (fs_watch D)) (σ : world),
  ∃ new,
    (detect_log_dirs buf_size send_func smtp_func add_watch es v σ).1
    = v ++ new ∧
    Forall (log_dir_watch buf_size send_func smtp_func add_watch es) new.
Proof.
  induction es as [|e es IH]; intros v σ.
  - exists []. by rewrite app_nil_r.
  - (* the entry [e] is passed over *)
    assert (Hlift : ∀ v' σ',
      ∃ new,
        (detect_log_dirs buf_size send_func smtp_func add_watch es v' σ').1
        = v' ++ new ∧
        Forall (log_dir_watch buf_size send_func smtp_func add_watch
                  (e :: es)) new).
    { intros v' σ'. destruct (IH v' σ') as (new & Heq & Hall).
      exists new. split; [done|]. eapply Forall_impl; [|exact Hall].
      intros w (e0 & He0 & Hrest). exists e0. split; [by right | done]. }
    (* the entry [e] is tried with the table [fn] *)
    assert (Htry : ∀ fn,
      is_directory e = 1 → head (lit (d_name e)) ≠ Some "."%char →
      ((occurs (lit "send") (lit (d_name e)) ∧ fn = send_func) ∨
       (¬ occurs (lit "send") (lit (d_name e)) ∧
        occurs (lit "smtp") (lit (d_name e)) ∧ fn = smtp_func)) →
      ∃ new,
        (match prepare_watcher buf_size add_watch (d_name e) fn σ with
         | (ND_SUCCESS, Some watch, σ1) =>
             detect_log_dirs buf_size send_func smtp_func add_watch es
               (v ++ [watch]) σ1
         | (_, _, σ1) =>
             detect_log_dirs buf_size send_func smtp_func add_watch es v σ1
         end).1 = v ++ new ∧
        Forall (log_dir_watch buf_size send_func smtp_func add_watch
                  (e :: es)) new).
    { intros fn Hdir Hhid Hname.
      destruct (prepare_watcher buf_size add_watch (d_name e) fn σ)
        as [[err [w|]] σ1] eqn:Ep.
      - apply prepare_watcher_some in Ep as Ep'.
        destruct Ep' as (Hwd & d & fd_ & Hinit & ->).
        assert (Herr : err = ND_SUCCESS).
        { revert Ep. unfold prepare_watcher. rewrite decide_False by done.
          destruct (sys_open σ _). rewrite Hinit. by intros [= <- _ _]. }
        subst err.
        destruct (Hlift (v ++ [zeroed_watch buf_size (Some (d_name e))
                                 (Some "current"%string) WATCH_LOG_FILE
                                 (add_watch (d_name e)) fd_ fn d]) σ1)
          as (new & Heq & Hall).
        eexists (_ :: new). rewrite Heq, <- app_assoc. split; [done|].
        constructor; [|done]. exists e. split; [by left|].
        simpl. by split_and!.
      - destruct (Hlift v σ1) as (new & Heq & Hall). exists new.
        by destruct err. }
    rewrite detect_log_dirs_cons.
    destruct (decide (head (lit (d_name e)) = Some "."%char)); [apply Hlift|].
    destruct (decide (is_directory e = 1)); [|apply Hlift].
    cbv zeta.
    destruct (strstr (lit (d_name e)) (lit "send")) as [t|] eqn:Es.
    + apply Htry; try done. left. split; [|done].
      destruct (strstr_Some _ _ _ Es) as (pre & post & Hh & ->).
      by exists pre, post.
    + destruct (strstr (lit (d_name e)) (lit "smtp")) as [t|] eqn:Em;
        [|apply Hlift].
      apply Htry; try done. right. split_and!; try done.
      * by apply strstr_None.
      * destruct (strstr_Some _ _ _ Em) as (pre & post & Hh & ->).
        by exists pre, post.
Qed.

Local Abbreviation setup_ :=
  (setup buf_size send_func smtp_func queue_func ratelimitspp_func).

(** X15.  The queue watch is always there.  When the queue table can
    allocate its data, the start of [main] gets through whatever the
    directory holds, with no output yet and with the queue watch as the
    last watch of the registry, stamped with the time of the start: the
    exit for an empty registry is then out of reach.  A failure to
    allocate the data of the aggregator goes unnoticed and leaves the
    plugin without aggregator.  Only when the queue table fails to
    allocate in a directory without entries does the start exit with
    1. *)
Theorem queue_watch_is_always_registered (env : environment) :
  chdir_ok env = true → inotify_init_ok env = true →
  opendir_ok env = true →
  (∀ dq, init queue_func = Some dq →
     ∃ st0,
       setup_ env = Ok st0 ∧ out st0 = [] ∧
       list.last (watchers st0)
       = Some (set_time
                 (zeroed_watch buf_size None None WATCH_QUEUE (-1) (-1)
                    queue_func dq)
                 (clock (kernel st0))) ∧
       aggregators st0
       = match init ratelimitspp_func with
         | Some d =>
             [{| agg_type := WATCH_LOG_FILE; agg_func := ratelimitspp_func;
                 agg_data := d; agg_time := clock (kernel st0) |}]
         | None => []
         end) ∧
  (init queue_func = None → entries env = [] →
   setup_ env = Stop (Exited 1)).
Proof.
  intros Hc Hi Ho. unfold setup. rewrite Hc, Hi, Ho. simpl. split.
  - intros dq Hq.
    destruct (detect_log_dirs _ _ _ _ _ _ _) as [v1 σ1].
    unfold append_queue_watcher. rewrite Hq.
    destruct (v1 ++ [_]) as [|w ws] eqn:Ev.
    { by destruct v1. }
    rewrite <- Ev. unfold append_ratelimit_aggregator.
    destruct (init ratelimitspp_func);
      eexists; (split; [done|]); simpl; (split; [done|]);
      rewrite map_app; simpl; by rewrite last_snoc.
  - intros Hq He. rewrite He. simpl.
    unfold append_queue_watcher. by rewrite Hq.
Qed.

End StartExtras.

(** ** More on [ratelimitspp_process] *)

(** [strstr] stops at the first occurrence, so what follows any
    occurrence is still there behind the one it finds. *)
Lemma strstr_first pre n post :
  ∃ r, strstr (pre ++ n ++ post) n = Some (r ++ n ++ post).
Proof.
  induction pre as [|x pre [r IH]]; rewrite strstr_unfold.
  - exists []. simpl. by rewrite starts_with_app.
  - destruct (starts_with _ n).
    + by exists (x :: pre).
    + exists r. exact IH.
Qed.

Lemma strstr_tail_absent h n t m :
  strstr h n = Some t → ¬ occurs m h → strstr t m = None.
Proof.
  intros Ht Hm. apply strstr_None. intros (pre & post & Hocc).
  apply Hm. destruct (strstr_Some _ _ _ Ht) as (pre0 & _ & -> & _).
  exists (pre0 ++ pre), post. by rewrite Hocc, <- app_assoc.
Qed.

Lemma int_incr_small z : - 2 ^ 31 ≤ z < 2 ^ 31 - 1 → int_incr z = z + 1.
Proof.
  intros Hz. unfold int_incr. rewrite Z.mod_small; lia.
Qed.

(** X16.  How [ratelimitspp_process] sorts a line that carries the
    marker and, behind it, [Error:].  When the text of the connection
    time-out follows that, the line counts as a time-out and as nothing
    else; when that text is nowhere in the line, it counts as an error
    and as nothing else.  A counter below [INT_MAX] goes up by exactly
    one. *)
Theorem error_lines_are_sorted (a b c e : list ascii)
    (data : ratelimitspp_statistics) :
  (ratelimitspp_process
     (a ++ lit "ratelimitspp:" ++ b ++ lit "Error:" ++ c ++
      lit "Receiving data failed, connection timed out." ++ e) data
   = Some {| conn_timeout := int_incr (conn_timeout data);
             error := error data; ratelimited := ratelimited data |}) ∧
  (¬ occurs (lit "Receiving data failed, connection timed out.")
       (a ++ lit "ratelimitspp:" ++ b ++ lit "Error:" ++ c) →
   ratelimitspp_process (a ++ lit "ratelimitspp:" ++ b ++ lit "Error:" ++ c)
     data
   = Some {| conn_timeout := conn_timeout data;
             error := int_incr (error data);
             ratelimited := ratelimited data |}) ∧
  (∀ z, - 2 ^ 31 ≤ z < 2 ^ 31 - 1 → int_incr z = z + 1).
Proof.
  split_and!.
  - unfold ratelimitspp_process.
    destruct (strstr_first a (lit "ratelimitspp:")
                (b ++ lit "Error:" ++ c ++
                 lit "Receiving data failed, connection timed out." ++ e))
      as [r ->].
    replace (r ++ lit "ratelimitspp:" ++ b ++ lit "Error:" ++ c ++
             lit "Receiving data failed, connection timed out." ++ e)
      with ((r ++ lit "ratelimitspp:" ++ b) ++ lit "Error:" ++ c ++
            lit "Receiving data failed, connection timed out." ++ e)
      by (by rewrite <- !app_assoc).
    destruct (strstr_first (r ++ lit "ratelimitspp:" ++ b) (lit "Error:")
                (c ++ lit "Receiving data failed, connection timed out." ++ e))
      as [r' ->].
    replace (r' ++ lit "Error:" ++ c ++
             lit "Receiving data failed, connection timed out." ++ e)
      with ((r' ++ lit "Error:" ++ c) ++
            lit "Receiving data failed, connection timed out." ++ e)
      by (by rewrite <- !app_assoc).
    by destruct (strstr_first (r' ++ lit "Error:" ++ c)
                   (lit "Receiving data failed, connection timed out.") e)
      as [r'' ->].
  - intros Hno. unfold ratelimitspp_process.
    destruct (strstr_first a (lit "ratelimitspp:") (b ++ lit "Error:" ++ c))
      as [r Hr]. rewrite Hr.
    replace (r ++ lit "ratelimitspp:" ++ b ++ lit "Error:" ++ c)
      with ((r ++ lit "ratelimitspp:" ++ b) ++ lit "Error:" ++ c)
      by (by rewrite <- !app_assoc).
    destruct (strstr_first (r ++ lit "ratelimitspp:" ++ b) (lit "Error:") c)
      as [r' Hr']. rewrite Hr'.
    rewrite (strstr_tail_absent
               ((r ++ lit "ratelimitspp:" ++ b) ++ lit "Error:" ++ c)
               (lit "Error:") _ _ Hr'); [done|].
    intros (pre & post & Hocc). apply Hno.
    destruct (strstr_Some _ _ _ Hr) as (pre0 & _ & Hline & _).
    exists (pre0 ++ pre), post. rewrite Hline.
    rewrite <- !app_assoc in Hocc. rewrite Hocc. by rewrite <- !app_assoc.
  - apply int_incr_small.
Qed.

(** X17.  The counter [ratelimited] is dead.  A line with the marker but
    without [Error:] anywhere, the only kind of line for which the code
    means to look for [;Result:NOK], makes the function hand a null
    pointer to [strstr]; and whenever the function returns, [ratelimited]
    is what it was. *)
Theorem ratelimited_is_never_counted :
  (∀ line data,
     occurs (lit "ratelimitspp:") line → ¬ occurs (lit "Error:") line →
     ratelimitspp_process line data = None) ∧
  (∀ line data data',
     ratelimitspp_process line data = Some data' →
     ratelimited data' = ratelimited data).
Proof.
  split.
  - intros line data (pre & post & ->) Hno. unfold ratelimitspp_process.
    destruct (strstr_first pre (lit "ratelimitspp:") post) as [r Hr].
    rewrite Hr. by rewrite (strstr_tail_absent _ _ _ _ Hr Hno).
  - intros line data data'. unfold ratelimitspp_process.
    destruct (strstr line _) as [ptr|]; [|by intros [= <-]].
    destruct (strstr ptr _) as [ptr'|]; [|done].
    by destruct (strstr ptr' _); intros [= <-].
Qed.

Lemma error_lines_are_sorted_witness :
  ratelimitspp_process
    (lit "@4000 " ++ lit "ratelimitspp:" ++ lit " " ++ lit "Error:" ++
     lit " no route to host")
    {| conn_timeout := 7; error := 0; ratelimited := 0 |}
  = Some {| conn_timeout := 7; error := int_incr 0; ratelimited := 0 |}.
Proof.
  apply (proj1 (proj2 (error_lines_are_sorted (lit "@4000 ") (lit " ")
                         (lit " no route to host") []
                         {| conn_timeout := 7; error := 0;
                            ratelimited := 0 |}))).
  apply strstr_None. vm_compute. reflexivity.
Defined.

Lemma ratelimited_is_never_counted_witness :
  ratelimitspp_process
    (lit "ratelimitspp: Ident:1.2.3.4;Result:NOK") ratelimitspp_zero = None.
Proof.
  apply (proj1 ratelimited_is_never_counted).
  - exists [], (lit " Ident:1.2.3.4;Result:NOK"). reflexivity.
  - apply strstr_None. vm_compute. reflexivity.
Defined.

Lemma aggregators_printed_in_order_witness :
  aggregator_loop
    [log_aggregator (ratelimitspp true 0); log_aggregator (ratelimitspp true 0)]
    quiet_kernel [] true
  = (reset_aggregator quiet_kernel <$>
       [log_aggregator (ratelimitspp true 0);
        log_aggregator (ratelimitspp true 0)],
     [] ++ (aggregator_snapshot quiet_kernel <$>
              [log_aggregator (ratelimitspp true 0);
               log_aggregator (ratelimitspp true 0)]),
     true) ∧
  aggregator_loop
    ([log_aggregator (ratelimitspp true 0)] ++
     log_aggregator (ratelimitspp true (-1)) ::
     [log_aggregator (ratelimitspp true 0)])
    quiet_kernel [] true
  = ((reset_aggregator quiet_kernel <$> [log_aggregator (ratelimitspp true 0)])
     ++ stamped_aggregator quiet_kernel
          (log_aggregator (ratelimitspp true (-1)))
     :: [log_aggregator (ratelimitspp true 0)],
     [] ++ (aggregator_snapshot quiet_kernel <$>
              [log_aggregator (ratelimitspp true 0)])
     ++ [aggregator_snapshot quiet_kernel
           (log_aggregator (ratelimitspp true (-1)))],
     false).
Proof.
  split.
  - apply (proj1 (aggregators_printed_in_order quiet_kernel [] true)).
    repeat constructor.
  - apply (proj2 (aggregators_printed_in_order quiet_kernel [] true)
             [log_aggregator (ratelimitspp true 0)]
             [log_aggregator (ratelimitspp true 0)]
             (log_aggregator (ratelimitspp true (-1)))).
    + repeat constructor.
    + discriminate.
Defined.

Lemma cycle_reaches_two_watches_only_witness :
  ∃ st',
    interval_cycle 5
      (two_log_watches (with_aggregate (ratelimitspp true 0) sum_statistics))
    = Ok (st', true) ∧
    watchers st' !! 1%nat
    = watchers
        (two_log_watches
           (with_aggregate (ratelimitspp true 0) sum_statistics)) !! 1%nat.
Proof.
  assert (Hrun : ∃ st',
    interval_cycle 5
      (two_log_watches (with_aggregate (ratelimitspp true 0) sum_statistics))
    = Ok (st', true)) by (eexists; reflexivity).
  destruct Hrun as [st' Hrun]. exists st'. split; [exact Hrun|].
  apply (cycle_reaches_two_watches_only 5
           (two_log_watches
              (with_aggregate (ratelimitspp true 0) sum_statistics))
           st' true 1 Hrun).
  - lia.
  - simpl. lia.
Defined.

Lemma cycle_never_ends_witness :
  interval_cycle 1000
    (three_watches (with_aggregate (ratelimitspp true 0) sum_statistics))
  = Stop Spinning.
Proof.
  apply (cycle_never_ends 1000
           (three_watches (with_aggregate (ratelimitspp true 0) sum_statistics))
           send_watch queue_watch).
  - reflexivity.
  - simpl. lia.
  - repeat constructor. intros _. by eexists.
  - reflexivity.
  - reflexivity.
  - reflexivity.
  - reflexivity.
  - repeat constructor. discriminate.
Defined.

Lemma idle_polls_are_skipped_witness :
  event_loop 5 (two_log_watches (ratelimitspp true 0))
    ([PollError; PollTimeout; PollReady false None false] ++
     [PollReady true None true])
  = event_loop 5 (two_log_watches (ratelimitspp true 0))
      [PollReady true None true].
Proof.
  apply (idle_polls_are_skipped 5 (two_log_watches (ratelimitspp true 0))
           [PollError; PollTimeout; PollReady false None false]
           [PollReady true None true]).
  repeat constructor.
Defined.

Lemma queue_watch_is_always_registered_witness :
  ∃ st0,
    setup 8 (printing 0) (printing 0) (printing 0) (printing 0)
      bare_environment = Ok st0 ∧
    out st0 = [] ∧
    list.last (watchers st0)
    = Some (set_time
              (zeroed_watch 8 None None WATCH_QUEUE (-1) (-1) (printing 0) 0)
              (clock (kernel st0))) ∧
    aggregators st0
    = match init (printing 0) with
      | Some d =>
          [{| agg_type := WATCH_LOG_FILE; agg_func := printing 0;
              agg_data := d; agg_time := clock (kernel st0) |}]
      | None => []
      end.
Proof.
  apply (proj1 (queue_watch_is_always_registered 8 (printing 0) (printing 0)
                  (printing 0) (printing 0) bare_environment
                  eq_refl eq_refl eq_refl) 0).
  reflexivity.
Defined.

Lemma failing_watch_print_ends_the_cycle_witness :
  interval_cycle 3 failed_sink
  = Ok ({| watchers :=
             <[0%nat := set_time (set_data unprinted_watch (counted 3)) 10]>
               [unprinted_watch];
           aggregators :=
             [] ++
             stamped_aggregator
               (set_fds quiet_kernel (<[3 := []]> (fds quiet_kernel)))
               (set_agg_data unprinted_aggregator (counted 3))
             :: [set_agg_data unprinted_aggregator (counted 3)];
           kernel := set_fds quiet_kernel (<[3 := []]> (fds quiet_kernel));
           out := ([] ++ [WatchSnapshot (Some "send"%string) (counted 3) 10])
                  ++ [] ++ [AggregatorSnapshot (counted 3) 10] |}, false).
Proof.
  destruct (failing_watch_print_ends_the_cycle 2 failed_sink unprinted_watch
              ND_SUCCESS unprinted_watch
              (set_fds quiet_kernel (<[3 := []]> (fds quiet_kernel)))
              [set_agg_data unprinted_aggregator (counted 3);
               set_agg_data unprinted_aggregator (counted 3)] 2)
    as (_ & _ & Hfails).
  - reflexivity.
  - reflexivity.
  - reflexivity.
  - reflexivity.
  - discriminate.
  - apply (Hfails [] [set_agg_data unprinted_aggregator (counted 3)]
             (set_agg_data unprinted_aggregator (counted 3))).
    + reflexivity.
    + constructor.
    + discriminate.
Defined.

Lemma lone_queue_watch_cycle_witness :
  interval_cycle 2
    {| watchers := [queue_watch];
       aggregators := [log_aggregator (ratelimitspp true 0)];
       kernel := quiet_kernel; out := [] |}
  = Ok ({| watchers :=
             [set_data (set_time (set_data queue_watch (counted 1)) 10)
                (counted 0)];
           aggregators :=
             reset_aggregator quiet_kernel <$>
               [log_aggregator (ratelimitspp true 0)];
           kernel := quiet_kernel;
           out := ([] ++ [WatchSnapshot None (counted 1) 10])
                  ++ (aggregator_snapshot quiet_kernel <$>
                        [log_aggregator (ratelimitspp true 0)]) |}, true).
Proof.
  apply (lone_queue_watch_cycle 0 queue_watch
           [log_aggregator (ratelimitspp true 0)] quiet_kernel []).
  - reflexivity.
  - repeat constructor. discriminate.
  - reflexivity.
  - repeat constructor.
Defined.
